(** * Terminal Snake Game: a shallow embedding of [snake_game.py]

    The game state is threaded explicitly.  Everything the program asks of
    its environment is a script consumed from the front: the keys returned
    by [stdscr.getch], the sizes returned by [stdscr.getmaxyx] and the raw
    values behind [random.randint].  Everything it does to the terminal is
    appended to a log of curses calls.  A run that needs more of a script
    than is left stops in an explicit "waiting" outcome. *)

From Stdlib Require Import ZArith List String Ascii Bool Lia DecimalString.
Import ListNotations.
Local Open Scope Z_scope.

(** ** Python values *)

(** A cell is the two-element list [[row, col]]. *)
Definition cell : Type := (Z * Z)%type.

(** A box is [[[top, left], [bottom, right]]]: [box[0][0]] is [fst (fst box)]. *)
Definition Box : Type := (cell * cell)%type.

Definition cell_eqb (a b : cell) : bool :=
  (fst a =? fst b) && (snd a =? snd b).

(** Python's [c in l] on a list of cells. *)
Fixpoint mem (c : cell) (l : list cell) : bool :=
  match l with
  | [] => false
  | x :: l' => cell_eqb c x || mem c l'
  end.

Inductive exn : Type := ValueError | IndexError.

(** The result of running a piece of Python against finite scripts. *)
Inductive result (A : Type) : Type :=
| Ok (a : A)
| Raise (e : exn)
| Starved.
Arguments Ok {A} a.
Arguments Raise {A} e.
Arguments Starved {A}.

Definition bind {A B : Type} (m : result A) (f : A -> result B) : result B :=
  match m with
  | Ok a => f a
  | Raise e => Raise e
  | Starved => Starved
  end.

Notation "x <- m ;; k" := (bind m (fun x => k))
  (at level 61, m at next level, right associativity).
Notation "' p <- m ;; k" := (bind m (fun x => let p := x in k))
  (at level 61, p pattern, m at next level, right associativity).

(** [ord(c)] and [str(n)], [len(s)]. *)
Definition ord (c : ascii) : Z := Z.of_N (N_of_ascii c).
Definition str (n : Z) : string := NilZero.string_of_int (Z.to_int n).
Definition len (s : string) : Z := Z.of_nat (String.length s).

(** ** The curses constants the program uses (ncurses values) *)

Definition KEY_DOWN : Z := 258.
Definition KEY_UP : Z := 259.
Definition KEY_LEFT : Z := 260.
Definition KEY_RIGHT : Z := 261.
(** [getch] under a timeout returns [-1] when no key arrived. *)
Definition NO_KEY : Z := -1.
Definition A_BOLD : Z := 2097152.
Definition color_pair (n : Z) : Z := Z.shiftl n 8.
Definition COLOR_BLACK : Z := 0.
Definition COLOR_RED : Z := 1.
Definition COLOR_GREEN : Z := 2.
Definition COLOR_YELLOW : Z := 3.
Definition COLOR_CYAN : Z := 6.

(** ** The terminal *)

(** One call on the screen (or [time.sleep], in milliseconds). *)
Inductive Event : Type :=
| CursSet (visibility : Z)
| StartColor
| InitPair (n fg bg : Z)
| Clear
| Refresh
| Sleep (ms : Z)
| AddStr (y x : Z) (s : string) (attr : Z)
| AddCh (y x : Z) (ch : ascii) (attr : Z)
| Rectangle (uly ulx lry lrx : Z).

Record World : Type := mkWorld {
  entropy : list Z;        (* raw values behind the coming randint calls *)
  poll_timeout : Z;        (* the value last given to stdscr.timeout *)
  screen : list Event      (* the calls made so far, oldest first *)
}.

Definition emit (es : list Event) (w : World) : World :=
  {| entropy := entropy w; poll_timeout := poll_timeout w;
     screen := screen w ++ es |}.

Definition set_timeout (ms : Z) (w : World) : World :=
  {| entropy := entropy w; poll_timeout := ms; screen := screen w |}.

Definition set_entropy (e : list Z) (w : World) : World :=
  {| entropy := e; poll_timeout := poll_timeout w; screen := screen w |}.

(** ** random.randint *)

(** [random.randint(lo, hi)]: raises [ValueError] on an empty range, and
    otherwise turns the next raw value into some [n] with [lo <= n <= hi];
    a raw value already in the range is returned as it is. *)
Definition randint (lo hi : Z) (draws : list Z) : result (Z * list Z) :=
  if hi <? lo then Raise ValueError
  else match draws with
       | [] => Starved
       | raw :: rest => Ok (lo + (raw - lo) mod (hi - lo + 1), rest)
       end.

(** ** create_food *)

(** One round of the [while food is None] loop draws a row and a column;
    a draw on the snake starts the next round.  The two [randint] calls
    are written out, which keeps the recursion structural in the script;
    [create_food_unfold] below states the round through [randint]. *)
Fixpoint create_food (snake : list cell) (box : Box) (draws : list Z)
  : result (cell * list Z) :=
  let lo_r := fst (fst box) + 1 in
  let hi_r := fst (snd box) - 1 in
  let lo_c := snd (fst box) + 1 in
  let hi_c := snd (snd box) - 1 in
  if hi_r <? lo_r then Raise ValueError
  else match draws with
       | [] => Starved
       | raw_r :: draws1 =>
         if hi_c <? lo_c then Raise ValueError
         else match draws1 with
              | [] => Starved
              | raw_c :: draws2 =>
                let food := (lo_r + (raw_r - lo_r) mod (hi_r - lo_r + 1),
                             lo_c + (raw_c - lo_c) mod (hi_c - lo_c + 1)) in
                if mem food snake then create_food snake box draws2
                else Ok (food, draws2)
              end
       end.

(** ** The locals of [game_loop] *)

Record Game : Type := mkGame {
  snake : list cell;       (* head at index 0 *)
  direction : Z;           (* a curses key code *)
  food : cell;
  score : Z
}.

(** ** Drawing helpers *)

Definition display_score (score height width : Z) (w : World) : World :=
  let score_text := ("Score: " ++ str score)%string in
  emit [AddStr 0 (width / 2 - len score_text / 2) score_text (color_pair 3)] w.

Definition instructions : string :=
  "Use arrow keys to move. Press 'q' to quit.".

Definition display_instructions (height width : Z) (w : World) : World :=
  emit [AddStr (height - 1) (width / 2 - len instructions / 2)
          instructions (color_pair 3)] w.

Definition rectangle (box : Box) : Event :=
  Rectangle (fst (fst box)) (snd (fst box)) (fst (snd box)) (snd (snd box)).

(** [for i, segment in enumerate(snake)]: index 0 is the head. *)
Definition draw_snake (snake : list cell) : list Event :=
  match snake with
  | [] => []
  | h :: body =>
    AddCh (fst h) (snd h) "@" (Z.lor (color_pair 1) A_BOLD)
    :: map (fun s => AddCh (fst s) (snd s) "o" (color_pair 1)) body
  end.

(** ** One pass through the body of the game loop *)

Definition is_arrow (key : Z) : bool :=
  (key =? KEY_UP) || (key =? KEY_DOWN) || (key =? KEY_LEFT) || (key =? KEY_RIGHT).

(** The [if]/[elif] chain that guards against a 180 degree turn. *)
Definition turn (direction key : Z) : Z :=
  if (key =? KEY_UP) && negb (direction =? KEY_DOWN) then key
  else if (key =? KEY_DOWN) && negb (direction =? KEY_UP) then key
  else if (key =? KEY_LEFT) && negb (direction =? KEY_RIGHT) then key
  else if (key =? KEY_RIGHT) && negb (direction =? KEY_LEFT) then key
  else direction.

Inductive input_result : Type :=
| Steer (direction : Z)
| Quit.

Definition handle_input (direction key : Z) : input_result :=
  if is_arrow key then Steer (turn direction key)
  else if key =? ord "q" then Quit
  else Steer direction.

(** [new_head = snake[0].copy()] followed by the direction chain. *)
Definition move (direction : Z) (head : cell) : cell :=
  if direction =? KEY_UP then (fst head - 1, snd head)
  else if direction =? KEY_DOWN then (fst head + 1, snd head)
  else if direction =? KEY_LEFT then (fst head, snd head - 1)
  else if direction =? KEY_RIGHT then (fst head, snd head + 1)
  else head.

Definition hits_wall (box : Box) (head : cell) : bool :=
  (fst head <=? fst (fst box)) || (fst head >=? fst (snd box))
  || (snd head <=? snd (fst box)) || (snd head >=? snd (snd box)).

Definition new_timeout (score : Z) : Z := Z.max 50 (100 - score * 2).

(** The [return score] statement a pass left the loop through. *)
Inductive ReturnSite : Type := AtQuit | AtWall | AtSelf.

Inductive outcome : Type :=
| Running (g : Game) (w : World)
| Returned (site : ReturnSite) (score : Z) (g : Game) (w : World)
| Raised (e : exn)
| Waiting.

(** The food branch: [food = create_food(snake, box)]. *)
Definition place_food (box : Box) (g : Game) (w : World) : result (Game * World) :=
  '(food', rest) <- create_food (snake g) box (entropy w) ;;
  Ok ({| snake := snake g; direction := direction g; food := food';
         score := score g |}, set_entropy rest w).

(** ... then [score += 1] and the new poll timeout. *)
Definition eat (box : Box) (g : Game) (w : World) : result (Game * World) :=
  '(g1, w1) <- place_food box g w ;;
  let score' := score g1 + 1 in
  Ok ({| snake := snake g1; direction := direction g1; food := food g1;
         score := score' |}, set_timeout (new_timeout score') w1).

(** The other branch: [tail = snake.pop()] and the blank over it. *)
Definition drop_tail (g : Game) (w : World) : Game * World :=
  let tail := last (snake g) (0, 0) in
  ({| snake := removelast (snake g); direction := direction g;
      food := food g; score := score g |},
   emit [AddCh (fst tail) (snd tail) " " 0] w).

Definition draw (height width : Z) (box : Box) (g : Game) (w : World) : World :=
  let w := emit [AddCh (fst (food g)) (snd (food g)) "*" (color_pair 2)] w in
  let w := emit (draw_snake (snake g)) w in
  let w := emit [rectangle box] w in
  let w := display_instructions height width w in
  emit [Refresh] w.

(** The loop body from the key onwards (the key is what [getch] returned). *)
Definition tick (height width : Z) (box : Box) (key : Z) (g : Game) (w : World)
  : outcome :=
  match handle_input (direction g) key with
  | Quit => Returned AtQuit (score g) g w
  | Steer d =>
    match snake g with
    | [] => Raised IndexError
    | head :: _ =>
      let new_head := move d head in
      let g1 := {| snake := new_head :: snake g; direction := d;
                   food := food g; score := score g |} in
      if hits_wall box new_head then Returned AtWall (score g1) g1 w
      else if mem new_head (snake g) then Returned AtSelf (score g1) g1 w
      else
        let after :=
          if cell_eqb new_head (food g1) then eat box g1 w
          else Ok (drop_tail g1 w) in
        match after with
        | Ok (g2, w2) => Running g2 (draw height width box g2 w2)
        | Raise e => Raised e
        | Starved => Waiting
        end
    end
  end.

(** ** game_loop *)

Inductive loop_result : Type :=
| GameOver (site : ReturnSite) (score : Z) (g : Game) (w : World) (keys : list Z)
| Pending (g : Game) (w : World)
| Crashed (e : exn)
| NoEntropy.

(** The [while True] of [game_loop]: the score line, a key, one pass. *)
Fixpoint ticks (height width : Z) (box : Box) (keys : list Z)
  (g : Game) (w : World) : loop_result :=
  let w := display_score (score g) height width w in
  match keys with
  | [] => Pending g w
  | key :: keys' =>
    match tick height width box key g w with
    | Running g' w' => ticks height width box keys' g' w'
    | Returned site s g' w' => GameOver site s g' w' keys'
    | Raised e => Crashed e
    | Waiting => NoEntropy
    end
  end.

Definition arena (height width : Z) : Box := ((1, 1), (height - 2, width - 2)).

(** The code of [game_loop] before its loop. *)
Definition new_game (height width : Z) (w : World) : result (Game * World) :=
  let w := emit [Clear] w in
  let box := arena height width in
  let w := emit [rectangle box] w in
  let snake0 := [(height / 2, width / 4)] in
  '(food0, rest) <- create_food snake0 box (entropy w) ;;
  let w := set_entropy rest w in
  let g := {| snake := snake0; direction := KEY_RIGHT; food := food0; score := 0 |} in
  let w := display_instructions height width w in
  let w := display_score (score g) height width w in
  Ok (g, w).

Definition game_loop (height width : Z) (keys : list Z) (w : World) : loop_result :=
  match new_game height width w with
  | Ok (g, w') => ticks height width (arena height width) keys g w'
  | Raise e => Crashed e
  | Starved => NoEntropy
  end.

(** ** The screens around a game *)

(** [display_too_small_message]: asks the size again, then two lines. *)
Definition display_too_small_message (sizes : list (Z * Z)) (w : World)
  : option (list (Z * Z) * World) :=
  match sizes with
  | [] => None
  | (height, width) :: sizes' =>
    let y := Z.max 0 (height / 2 - 1) in
    let x := Z.max 0 (width / 2 - 15) in
    Some (sizes',
          emit [AddStr y x "Terminal too small!" (color_pair 3);
                AddStr (y + 1) x "Please resize and try again." (color_pair 3)] w)
  end.

(** The [while True] of [display_game_over]: only y, Y, n and N end it. *)
Fixpoint wait_yes_no (keys : list Z) : option (bool * list Z) :=
  match keys with
  | [] => None
  | key :: keys' =>
    if (key =? ord "y") || (key =? ord "Y") then Some (true, keys')
    else if (key =? ord "n") || (key =? ord "N") then Some (false, keys')
    else wait_yes_no keys'
  end.

Definition display_game_over (score : Z) (keys : list Z) (sizes : list (Z * Z))
  (w : World) : option (bool * list Z * list (Z * Z) * World) :=
  let w := emit [Clear] w in
  match sizes with
  | [] => None
  | (height, width) :: sizes' =>
    let game_over_text := "GAME OVER"%string in
    let score_text := ("Final Score: " ++ str score)%string in
    let play_again_text := "Play again? (y/n)"%string in
    let center_y := height / 2 in
    let w := emit [AddStr (center_y - 2) (width / 2 - len game_over_text / 2)
                     game_over_text (Z.lor A_BOLD (color_pair 2));
                   AddStr center_y (width / 2 - len score_text / 2)
                     score_text (color_pair 3);
                   AddStr (center_y + 2) (width / 2 - len play_again_text / 2)
                     play_again_text (color_pair 3);
                   Refresh] w in
    match wait_yes_no keys with
    | None => None
    | Some (again, keys') => Some (again, keys', sizes', w)
    end
  end.

(** ** main *)

(** What one pass through the [while True] of [main] came to. *)
Inductive pass : Type :=
| TooSmall (sizes : list (Z * Z)) (w : World)
| Played (score : Z) (again : bool) (keys : list Z) (sizes : list (Z * Z)) (w : World)
| Failed (e : exn)
| Blocked.

Definition main_pass (keys : list Z) (sizes : list (Z * Z)) (w : World) : pass :=
  match sizes with
  | [] => Blocked
  | (height, width) :: sizes1 =>
    if (height <? 10) || (width <? 30) then
      let w := emit [Clear] w in
      match display_too_small_message sizes1 w with
      | None => Blocked
      | Some (sizes2, w) => TooSmall sizes2 (emit [Refresh; Sleep 500] w)
      end
    else
      match game_loop height width keys w with
      | GameOver _ score _ w1 keys1 =>
        match display_game_over score keys1 sizes1 w1 with
        | None => Blocked
        | Some (again, keys2, sizes2, w2) => Played score again keys2 sizes2 w2
        end
      | Pending _ _ => Blocked
      | Crashed e => Failed e
      | NoEntropy => Blocked
      end
  end.

Inductive main_result : Type :=
| Exited (keys : list Z) (sizes : list (Z * Z)) (w : World)
| Looping (keys : list Z) (sizes : list (Z * Z)) (w : World)
| Aborted (e : exn)
| Stalled.

(** [passes n] runs at most [n] passes of the loop of [main]. *)
Fixpoint passes (n : nat) (keys : list Z) (sizes : list (Z * Z)) (w : World)
  : main_result :=
  match n with
  | O => Looping keys sizes w
  | S n' =>
    match main_pass keys sizes w with
    | TooSmall sizes' w' => passes n' keys sizes' w'
    | Played _ true keys' sizes' w' => passes n' keys' sizes' w'
    | Played _ false keys' sizes' w' => Exited keys' sizes' w'
    | Failed e => Aborted e
    | Blocked => Stalled
    end
  end.

(** The set-up of [main] before its loop. *)
Definition main_setup (w : World) : World :=
  let w := emit [CursSet 0] w in
  let w := set_timeout 100 w in
  emit [StartColor;
        InitPair 1 COLOR_GREEN COLOR_BLACK;
        InitPair 2 COLOR_RED COLOR_BLACK;
        InitPair 3 COLOR_YELLOW COLOR_BLACK;
        InitPair 4 COLOR_CYAN COLOR_BLACK] w.

Definition main (n : nat) (keys : list Z) (sizes : list (Z * Z)) (w : World)
  : main_result :=
  passes n keys sizes (main_setup w).

(** ** Vocabulary of the statements *)

Inductive Direction : Type := Up | Down | Left | Right.

Definition key_of (d : Direction) : Z :=
  match d with
  | Up => KEY_UP
  | Down => KEY_DOWN
  | Left => KEY_LEFT
  | Right => KEY_RIGHT
  end.

Definition opposite (d : Direction) : Direction :=
  match d with
  | Up => Down
  | Down => Up
  | Left => Right
  | Right => Left
  end.

Definition Direction_eqb (a b : Direction) : bool :=
  match a, b with
  | Up, Up | Down, Down | Left, Left | Right, Right => true
  | _, _ => false
  end.

(** Two cells one unit apart in exactly one coordinate. *)
Definition adjacent (a b : cell) : Prop :=
  (fst a = fst b /\ (snd a = snd b + 1 \/ snd a = snd b - 1))
  \/ (snd a = snd b /\ (fst a = fst b + 1 \/ fst a = fst b - 1)).

Fixpoint connected (l : list cell) : Prop :=
  match l with
  | a :: (b :: _) as l' => adjacent a b /\ connected l'
  | _ => True
  end.

(** Strictly inside the border lines of the box. *)
Definition inside (box : Box) (c : cell) : Prop :=
  fst (fst box) < fst c < fst (snd box) /\ snd (fst box) < snd c < snd (snd box).

(** The head a pass will try, given the key it polled. *)
Definition next_head (key : Z) (g : Game) : option cell :=
  match handle_input (direction g) key, snake g with
  | Steer d, head :: _ => Some (move d head)
  | _, _ => None
  end.

(** The states of one game: the state [new_game] sets up, and every state
    a completed pass leaves behind. *)
Inductive reachable (height width : Z) : Game -> World -> Prop :=
| reach_new w g w' :
    new_game height width w = Ok (g, w') ->
    reachable height width g w'
| reach_tick g w key g' w' :
    reachable height width g w ->
    tick height width (arena height width) key g
      (display_score (score g) height width w) = Running g' w' ->
    reachable height width g' w'.

(** The cells the successive rounds of [create_food] look at, for a given
    script of raw values. *)
Fixpoint samples (box : Box) (draws : list Z) : list cell :=
  match draws with
  | raw_r :: raw_c :: draws' =>
    let lo_r := fst (fst box) + 1 in
    let hi_r := fst (snd box) - 1 in
    let lo_c := snd (fst box) + 1 in
    let hi_c := snd (snd box) - 1 in
    (lo_r + (raw_r - lo_r) mod (hi_r - lo_r + 1),
     lo_c + (raw_c - lo_c) mod (hi_c - lo_c + 1)) :: samples box draws'
  | _ => []
  end.

(** The locals of a run that waits for its next key. *)
Definition pending_state (r : loop_result) : option Game :=
  match r with
  | Pending g _ => Some g
  | _ => None
  end.

(** What holds of the locals between two passes. *)
Definition game_inv (g : Game) : Prop :=
  is_arrow (direction g) = true /\ snake g <> [] /\ connected (snake g).

(** A terminal under the minimum of [main]. *)
Definition too_small (size : Z * Z) : Prop := fst size < 10 \/ snd size < 30.

(** What a rejected pass of [main] puts on the screen, given the size that
    [display_too_small_message] was told. *)
Definition too_small_screen (size : Z * Z) : list Event :=
  let y := Z.max 0 (fst size / 2 - 1) in
  let x := Z.max 0 (snd size / 2 - 15) in
  [Clear;
   AddStr y x "Terminal too small!" (color_pair 3);
   AddStr (y + 1) x "Please resize and try again." (color_pair 3);
   Refresh;
   Sleep 500].

(** The sizes consumed by rejected passes: each pass asks twice, once in
    [main] and once in [display_too_small_message]. *)
Fixpoint polled (polls : list ((Z * Z) * (Z * Z))) : list (Z * Z) :=
  match polls with
  | [] => []
  | (checked, shown) :: polls' => checked :: shown :: polled polls'
  end.

(** ** States used in the examples (a 24 x 80 terminal) *)

(** A terminal on which nothing was drawn yet, with the given raw values
    to come. *)
Definition blank (draws : list Z) : World :=
  {| entropy := draws; poll_timeout := 100; screen := [] |}.

(** One cell in the middle, going right, food far away. *)
Definition lone_snake : Game :=
  {| snake := [(12, 20)]; direction := KEY_RIGHT; food := (5, 5); score := 0 |}.

(** One cell, going right, food on the next cell. *)
Definition hungry_snake : Game :=
  {| snake := [(12, 20)]; direction := KEY_RIGHT; food := (12, 21); score := 0 |}.

(** One cell next to the right border line (column 78), going right. *)
Definition edge_snake : Game :=
  {| snake := [(12, 77)]; direction := KEY_RIGHT; food := (5, 5); score := 2 |}.

(** Four cells along three sides of a square, going left; the tail is
    right above the head. *)
Definition square_snake : Game :=
  {| snake := [(13, 22); (13, 23); (12, 23); (12, 22)]; direction := KEY_LEFT;
     food := (2, 2); score := 3 |}.

(** ** start_screen *)

Definition title : string := "SNAKE GAME".

(** The local list [instructions] of [start_screen]. *)
Definition start_instructions : list string :=
  ["How to play:";
   "Use arrow keys to move the snake";
   "Eat food (*) to grow and earn points";
   "Avoid hitting walls and yourself";
   "Press 'q' any time to quit";
   "";
   "Press any key to start!"]%string.

(** [for i, line in enumerate(instructions)], from index [i] on: a line is
    written only under the guard [y < height and x > 0]. *)
Fixpoint start_screen_lines (height width i : Z) (lines : list string)
  : list Event :=
  match lines with
  | [] => []
  | line :: lines' =>
    let y := height / 2 - 2 + i in
    let x := width / 2 - len line / 2 in
    (if (y <? height) && (x >? 0) then [AddStr y x line (color_pair 3)] else [])
    ++ start_screen_lines height width (i + 1) lines'
  end.

(** [start_screen]: the title, the guarded lines, and a wait for one key. *)
Definition start_screen (keys : list Z) (sizes : list (Z * Z)) (w : World)
  : option (list Z * list (Z * Z) * World) :=
  let w := emit [Clear] w in
  match sizes with
  | [] => None
  | (height, width) :: sizes' =>
    let w := emit [AddStr (height / 2 - 5) (width / 2 - len title / 2) title
                     (Z.lor A_BOLD (color_pair 1))] w in
    let w := emit (start_screen_lines height width 0 start_instructions) w in
    let w := emit [Refresh] w in
    match keys with
    | [] => None
    | _ :: keys' => Some (keys', sizes', w)
    end
  end.

(** ** More vocabulary *)

(** The keys that end the prompt of [display_game_over]. *)
Definition is_yes (key : Z) : bool := (key =? ord "y") || (key =? ord "Y").
Definition is_no (key : Z) : bool := (key =? ord "n") || (key =? ord "N").
Definition is_answer (key : Z) : bool := is_yes key || is_no key.

(** The head is where the current direction leads from the cell behind
    it. *)
Definition heading_ok (g : Game) : Prop :=
  match snake g with
  | head :: neck :: _ => head = move (direction g) neck
  | _ => True
  end.

(** The locals of a game that has ended, with the score handed back. *)
Definition final_score (r : loop_result) : option Z :=
  match r with
  | GameOver _ s _ _ _ => Some s
  | _ => None
  end.

(** * Properties *)

(** ** Membership and equality of cells *)

Lemma cell_eqb_eq (a b : cell) : cell_eqb a b = true <-> a = b.
Proof.
  destruct a as [ar ac], b as [br bc]; unfold cell_eqb; simpl.
  rewrite andb_true_iff, !Z.eqb_eq.
  split; [intros [-> ->]; reflexivity | intros E; inversion E; auto].
Qed.

Lemma cell_eqb_neq (a b : cell) : cell_eqb a b = false <-> a <> b.
Proof.
  rewrite <- cell_eqb_eq. destruct (cell_eqb a b); split; congruence.
Qed.

Lemma mem_In (c : cell) (l : list cell) : mem c l = true <-> In c l.
Proof.
  induction l as [|x l IH]; simpl.
  - split; [discriminate | tauto].
  - rewrite orb_true_iff, IH, cell_eqb_eq. split; intros [H|H]; auto.
Qed.

Lemma mem_not_In (c : cell) (l : list cell) : mem c l = false <-> ~ In c l.
Proof.
  rewrite <- mem_In. destruct (mem c l); split; congruence.
Qed.

(** ** Input handling *)

Lemma is_arrow_key_of (d : Direction) : is_arrow (key_of d) = true.
Proof. destruct d; reflexivity. Qed.

Lemma is_arrow_inv (k : Z) : is_arrow k = true -> exists d, k = key_of d.
Proof.
  unfold is_arrow. rewrite !orb_true_iff, !Z.eqb_eq.
  intros [[[H|H]|H]|H]; subst k;
    [exists Up | exists Down | exists Left | exists Right]; reflexivity.
Qed.

Lemma turn_key_of (cur req : Direction) :
  turn (key_of cur) (key_of req)
  = key_of (if Direction_eqb req (opposite cur) then cur else req).
Proof. destruct cur, req; reflexivity. Qed.

Lemma handle_input_other (d key : Z) :
  is_arrow key = false -> key <> ord "q" -> handle_input d key = Steer d.
Proof.
  intros Ha Hq. unfold handle_input. rewrite Ha.
  apply Z.eqb_neq in Hq. rewrite Hq. reflexivity.
Qed.

Lemma handle_input_arrow (d key d' : Z) :
  is_arrow d = true -> handle_input d key = Steer d' -> is_arrow d' = true.
Proof.
  intros Hd. unfold handle_input.
  destruct (is_arrow key) eqn:Hk.
  - intros E. inversion E; subst d'; clear E.
    apply is_arrow_inv in Hd. destruct Hd as [c ->].
    apply is_arrow_inv in Hk. destruct Hk as [r ->].
    rewrite turn_key_of. apply is_arrow_key_of.
  - destruct (key =? ord "q"); [discriminate|].
    intros E. inversion E; subst d'. assumption.
Qed.

(** C4: for every current and every requested direction the update step
    takes the requested direction, unless it is the exact opposite of the
    current one, and then the current direction stays, as an ordinary
    result; moving Right and asking for Left leaves Right. *)
Theorem C4_no_reversal :
  forall cur req : Direction,
    handle_input (key_of cur) (key_of req)
    = Steer (key_of (if Direction_eqb req (opposite cur) then cur else req))
    /\ turn KEY_RIGHT KEY_LEFT = KEY_RIGHT.
Proof.
  intros cur req. split; [|reflexivity].
  unfold handle_input. rewrite is_arrow_key_of, turn_key_of. reflexivity.
Qed.

(** ** The poll timeout *)

Lemma new_timeout_floor (s : Z) : 50 <= new_timeout s.
Proof. unfold new_timeout. lia. Qed.

Lemma new_timeout_antitone (s1 s2 : Z) :
  s1 <= s2 -> new_timeout s2 <= new_timeout s1.
Proof. unfold new_timeout. lia. Qed.

Lemma eat_inv box g w g' w' :
  eat box g w = Ok (g', w') ->
  exists food' rest,
    create_food (snake g) box (entropy w) = Ok (food', rest)
    /\ g' = {| snake := snake g; direction := direction g; food := food';
               score := score g + 1 |}
    /\ w' = set_timeout (new_timeout (score g + 1)) (set_entropy rest w).
Proof.
  unfold eat, place_food, bind.
  destruct (create_food (snake g) box (entropy w)) as [[food' rest]| |];
    try discriminate.
  simpl. intros E. inversion E. eauto.
Qed.

(** What a pass that did not quit looks like, step by step. *)
Lemma tick_steer height width box key g w d head body :
  handle_input (direction g) key = Steer d ->
  snake g = head :: body ->
  let nh := move d head in
  let g1 := {| snake := nh :: snake g; direction := d; food := food g;
               score := score g |} in
  tick height width box key g w
  = if hits_wall box nh then Returned AtWall (score g) g1 w
    else if mem nh (snake g) then Returned AtSelf (score g) g1 w
    else match (if cell_eqb nh (food g) then eat box g1 w
                else Ok (drop_tail g1 w)) with
         | Ok (g2, w2) => Running g2 (draw height width box g2 w2)
         | Raise e => Raised e
         | Starved => Waiting
         end.
Proof.
  intros Hin Hs. unfold tick. rewrite Hin, Hs. reflexivity.
Qed.

Lemma next_head_inv key g nh :
  next_head key g = Some nh ->
  exists d head body,
    handle_input (direction g) key = Steer d
    /\ snake g = head :: body /\ nh = move d head.
Proof.
  unfold next_head.
  destruct (handle_input (direction g) key) as [d|]; [|discriminate].
  destruct (snake g) as [|head body]; [discriminate|].
  intros E. inversion E. exists d, head, body. auto.
Qed.

(** Everything a completed pass went through. *)
Lemma tick_running_inv height width box key g w g' w' :
  tick height width box key g w = Running g' w' ->
  exists d head body,
    handle_input (direction g) key = Steer d
    /\ snake g = head :: body
    /\ hits_wall box (move d head) = false
    /\ mem (move d head) (snake g) = false
    /\ let g1 := {| snake := move d head :: snake g; direction := d;
                    food := food g; score := score g |} in
       ((move d head = food g
         /\ exists g2 w2, eat box g1 w = Ok (g2, w2)
                          /\ g' = g2 /\ w' = draw height width box g2 w2)
        \/ (move d head <> food g
            /\ g' = fst (drop_tail g1 w)
            /\ w' = draw height width box g' (snd (drop_tail g1 w)))).
Proof.
  intros Ht.
  destruct (handle_input (direction g) key) as [d|] eqn:Hin;
    [|unfold tick in Ht; rewrite Hin in Ht; discriminate].
  destruct (snake g) as [|head body] eqn:Hs;
    [unfold tick in Ht; rewrite Hin, Hs in Ht; discriminate|].
  rewrite (tick_steer _ _ _ _ _ _ _ _ _ Hin Hs) in Ht. cbv zeta in Ht.
  exists d, head, body. rewrite <- Hs.
  destruct (hits_wall box (move d head)); [discriminate|].
  destruct (mem (move d head) (snake g)); [discriminate|].
  repeat (split; [reflexivity|]). cbv zeta.
  destruct (cell_eqb (move d head) (food g)) eqn:Hf.
  - left. apply cell_eqb_eq in Hf. split; [assumption|].
    destruct (eat box _ w) as [[g2 w2]| |]; try discriminate.
    inversion Ht; subst. eauto.
  - right. apply cell_eqb_neq in Hf. split; [assumption|].
    inversion Ht; subst. auto.
Qed.

(** C7: the interval set after a food is max(50, 100 - 2 * score); it
    never grows with the score and never goes under 50 (50 at score 25
    and at score 30), and a pass that eats installs it for the new
    score. *)
Theorem C7_tick_interval :
  (forall s, new_timeout s = Z.max 50 (100 - s * 2))
  /\ (forall s1 s2, s1 <= s2 -> new_timeout s2 <= new_timeout s1)
  /\ (forall s, 50 <= new_timeout s)
  /\ new_timeout 25 = 50 /\ new_timeout 30 = 50
  /\ (forall height width box key g w g' w',
         tick height width box key g w = Running g' w' ->
         next_head key g = Some (food g) ->
         score g' = score g + 1
         /\ poll_timeout w' = new_timeout (score g')).
Proof.
  split; [reflexivity|].
  split; [exact new_timeout_antitone|].
  split; [exact new_timeout_floor|].
  split; [reflexivity|]. split; [reflexivity|].
  intros height width box key g w g' w' Ht Hn.
  apply next_head_inv in Hn. destruct Hn as (d0 & h0 & b0 & Hin0 & Hs0 & Hm0).
  apply tick_running_inv in Ht.
  destruct Ht as (d & head & body & Hin & Hs & _ & _ & Hcase).
  rewrite Hin in Hin0. inversion Hin0; subst d0.
  rewrite Hs in Hs0. inversion Hs0; subst h0 b0.
  cbv zeta in Hcase. destruct Hcase as [[_ (g2 & w2 & He & -> & ->)] | [Hne _]].
  - apply eat_inv in He. destruct He as (f & rest & _ & -> & ->).
    simpl. split; reflexivity.
  - congruence.
Qed.

(** C2 as the code has it: a lowercase q ends the loop at once with the
    current score, and leaves snake, direction, food, score and terminal as
    they were before the pass. *)
Theorem C2_quit_on_q :
  forall height width box g w keys,
    tick height width box (ord "q") g w = Returned AtQuit (score g) g w
    /\ ticks height width box (ord "q" :: keys) g w
       = GameOver AtQuit (score g) g
           (display_score (score g) height width w) keys.
Proof.
  intros. split; reflexivity.
Qed.

(** C2 fails for an uppercase Q: the pass is completed, the snake moves
    from (12,20) to (12,21), and the loop is back at its poll for the next
    key instead of having returned. *)
Lemma C2_uppercase_Q_does_not_quit :
  exists g' w1 w2,
    tick 24 80 (arena 24 80) (ord "Q") lone_snake (blank []) = Running g' w1
    /\ ticks 24 80 (arena 24 80) [ord "Q"] lone_snake (blank []) = Pending g' w2
    /\ snake lone_snake = [(12, 20)]
    /\ snake g' = [(12, 21)].
Proof.
  eexists. eexists. eexists.
  split; [vm_compute; reflexivity|].
  split; [vm_compute; reflexivity|].
  split; reflexivity.
Qed.

(** C9: a key that is neither an arrow nor a lowercase q (no key at all,
    an uppercase Q, anything else) changes nothing in the input step: the
    pass is the pass of a poll that timed out, the direction stays, and
    the head tried is one step from the old head in that direction. *)
Theorem C9_other_keys_ignored :
  forall height width box key g w,
    is_arrow key = false -> key <> ord "q" ->
    handle_input (direction g) key = Steer (direction g)
    /\ tick height width box key g w = tick height width box NO_KEY g w
    /\ next_head key g
       = match snake g with
         | head :: _ => Some (move (direction g) head)
         | [] => None
         end
    /\ forall g' w',
        tick height width box key g w = Running g' w' ->
        direction g' = direction g
        /\ exists head body,
            snake g = head :: body
            /\ hd_error (snake g') = Some (move (direction g) head).
Proof.
  intros height width box key g w Ha Hq.
  pose proof (handle_input_other (direction g) key Ha Hq) as Hin.
  split; [assumption|].
  split; [unfold tick; rewrite Hin; reflexivity|].
  split; [unfold next_head; rewrite Hin; reflexivity|].
  intros g' w' Ht. apply tick_running_inv in Ht.
  destruct Ht as (d & head & body & Hin' & Hs & _ & _ & Hcase).
  rewrite Hin in Hin'. inversion Hin'; subst d. cbv zeta in Hcase.
  destruct Hcase as [[_ (g2 & w2 & He & -> & ->)] | [_ [-> _]]].
  - apply eat_inv in He. destruct He as (f & rest & _ & -> & _).
    simpl. split; [reflexivity|]. exists head, body. auto.
  - simpl. split; [reflexivity|]. exists head, body.
    split; [assumption|]. rewrite Hs. reflexivity.
Qed.

(** ** Collisions *)

Lemma hits_wall_spec (box : Box) (c : cell) :
  hits_wall box c = true
  <-> (fst c <= fst (fst box) \/ fst c >= fst (snd box)
       \/ snd c <= snd (fst box) \/ snd c >= snd (snd box)).
Proof.
  unfold hits_wall. rewrite !orb_true_iff, !Z.leb_le, !Z.geb_le. lia.
Qed.

(** C3: a pass that did not quit returns the current score through the
    wall check exactly when the new head is at or beyond a border line
    (row <= top, row >= bottom, column <= left or column >= right); in
    every other case it goes past that check. *)
Theorem C3_wall_collision :
  forall height width box key g w nh,
    next_head key g = Some nh ->
    let beyond :=
      fst nh <= fst (fst box) \/ fst nh >= fst (snd box)
      \/ snd nh <= snd (fst box) \/ snd nh >= snd (snd box) in
    (hits_wall box nh = true <-> beyond)
    /\ (beyond ->
        exists d,
          handle_input (direction g) key = Steer d
          /\ tick height width box key g w
             = Returned AtWall (score g)
                 {| snake := nh :: snake g; direction := d; food := food g;
                    score := score g |} w)
    /\ (~ beyond ->
        forall s g' w',
          tick height width box key g w <> Returned AtWall s g' w').
Proof.
  intros height width box key g w nh Hn beyond.
  apply next_head_inv in Hn. destruct Hn as (d & head & body & Hin & Hs & ->).
  pose proof (hits_wall_spec box (move d head)) as Hw. fold beyond in Hw.
  pose proof (tick_steer height width box key g w d head body Hin Hs) as Ht.
  cbv zeta in Ht.
  split; [exact Hw|]. split.
  - intros Hb. apply Hw in Hb. exists d. split; [assumption|].
    rewrite Ht, Hb. reflexivity.
  - intros Hb s g' w'. rewrite Ht.
    destruct (hits_wall box (move d head)); [exfalso; apply Hb, Hw; reflexivity|].
    destruct (mem (move d head) (snake g)); [discriminate|].
    destruct (if cell_eqb _ _ then _ else _) as [[g2 w2]| |]; discriminate.
Qed.

(** C1 as the code has it: the self check runs after the new head is put
    in front and before any tail is removed, so it compares the new head
    with every cell of the snake as it was before the move, the tail cell
    included.  A head that moves onto the cell of the tail ends the game
    with the current score. *)
Theorem C1_self_check_before_trim :
  forall height width box key g w nh,
    next_head key g = Some nh ->
    hits_wall box nh = false ->
    let collided :=
      exists d,
        handle_input (direction g) key = Steer d
        /\ tick height width box key g w
           = Returned AtSelf (score g)
               {| snake := nh :: snake g; direction := d; food := food g;
                  score := score g |} w in
    (In nh (snake g) -> collided)
    /\ (~ In nh (snake g) ->
        forall s g' w',
          tick height width box key g w <> Returned AtSelf s g' w')
    /\ (last (snake g) (0, 0) = nh -> collided).
Proof.
  intros height width box key g w nh Hn Hw collided.
  apply next_head_inv in Hn. destruct Hn as (d & head & body & Hin & Hs & ->).
  pose proof (tick_steer height width box key g w d head body Hin Hs) as Ht.
  cbv zeta in Ht. rewrite Hw in Ht.
  assert (Hcol : In (move d head) (snake g) -> collided).
  { intros Hi. apply mem_In in Hi. exists d. split; [assumption|].
    rewrite Ht, Hi. reflexivity. }
  split; [exact Hcol|]. split.
  - intros Hi s g' w'. apply mem_not_In in Hi. rewrite Ht, Hi.
    destruct (if cell_eqb _ _ then _ else _) as [[g2 w2]| |]; discriminate.
  - intros Hl. apply Hcol. rewrite <- Hl, Hs.
    clear. generalize head. induction body as [|b body IH]; intros a.
    + left. reflexivity.
    + right. apply (IH b).
Qed.

(** C1 fails on a snake of four cells that closes a square.  In a game on
    a 24 x 80 terminal the snake eats three times going right, then turns
    down and left; with the next key, Up, the head goes to (12,22), the
    cell of the tail, which that same pass would have vacated.  The cell
    is not food, not a wall and not in the body without the tail, and the
    game ends there through the self check with score 3. *)
Lemma C1_head_onto_tail_collides :
  exists w w',
    game_loop 24 80 [NO_KEY; NO_KEY; NO_KEY; KEY_DOWN; KEY_LEFT]
      (blank [12; 21; 12; 22; 12; 23; 2; 2])
    = Pending square_snake w
    /\ next_head KEY_UP square_snake = Some (12, 22)
    /\ last (snake square_snake) (0, 0) = (12, 22)
    /\ (12, 22) <> food square_snake
    /\ hits_wall (arena 24 80) (12, 22) = false
    /\ mem (12, 22) (removelast (snake square_snake)) = false
    /\ game_loop 24 80 [NO_KEY; NO_KEY; NO_KEY; KEY_DOWN; KEY_LEFT; KEY_UP]
         (blank [12; 21; 12; 22; 12; 23; 2; 2])
       = GameOver AtSelf 3
           {| snake := (12, 22) :: snake square_snake; direction := KEY_UP;
              food := (2, 2); score := 3 |} w' [].
Proof.
  eexists. eexists.
  split; [vm_compute; reflexivity|].
  split; [reflexivity|].
  split; [reflexivity|].
  split; [discriminate|].
  split; [reflexivity|].
  split; [reflexivity|].
  vm_compute. reflexivity.
Qed.

(** ** Length and score *)

Lemma length_removelast_cons (a : cell) (l : list cell) :
  List.length (removelast (a :: l)) = List.length l.
Proof.
  revert a. induction l as [|b l IH]; intros a; [reflexivity|].
  change (removelast (a :: b :: l)) with (a :: removelast (b :: l)).
  change (S (List.length (removelast (b :: l))) = S (List.length l)).
  f_equal. apply IH.
Qed.

Lemma tick_returned_score height width box key g w site s g' w' :
  tick height width box key g w = Returned site s g' w' ->
  s = score g /\ score g' = score g.
Proof.
  unfold tick.
  destruct (handle_input (direction g) key) as [d|].
  - destruct (snake g) as [|head body]; [discriminate|].
    destruct (hits_wall box (move d head)).
    { intros E; inversion E; subst; auto. }
    destruct (mem (move d head) (head :: body)).
    { intros E; inversion E; subst; auto. }
    destruct (if cell_eqb _ _ then _ else _) as [[g2 w2]| |]; discriminate.
  - intros E; inversion E; subst; auto.
Qed.

Lemma tick_running_score height width box key g w g' w' :
  tick height width box key g w = Running g' w' ->
  score g <= score g' <= score g + 1.
Proof.
  intros Ht. apply tick_running_inv in Ht.
  destruct Ht as (d & head & body & _ & _ & _ & _ & Hcase). cbv zeta in Hcase.
  destruct Hcase as [[_ (g2 & w2 & He & -> & _)] | [_ [-> _]]].
  - apply eat_inv in He. destruct He as (f & rest & _ & -> & _). simpl. lia.
  - simpl. lia.
Qed.

Lemma ticks_score height width box keys :
  forall g w,
    (forall g' w', ticks height width box keys g w = Pending g' w' ->
                   score g <= score g')
    /\ (forall site s g' w' rest,
           ticks height width box keys g w = GameOver site s g' w' rest ->
           score g <= s /\ s = score g').
Proof.
  induction keys as [|key keys IH]; intros g w; simpl.
  - split; [|discriminate].
    intros g' w' E; inversion E; subst. lia.
  - destruct (tick height width box key g (display_score (score g) height width w))
      as [g1 w1|site1 s1 g1 w1|e|] eqn:Ht.
    + apply tick_running_score in Ht. destruct (IH g1 w1) as [IHp IHg]. split.
      * intros g' w' E. apply IHp in E. lia.
      * intros site s g' w' rest E. apply IHg in E. lia.
    + apply tick_returned_score in Ht. destruct Ht as [-> Hs]. split; [discriminate|].
      intros site s g' w' rest E; inversion E; subst. lia.
    + split; discriminate.
    + split; discriminate.
Qed.

(** C6: a completed pass that ate nothing leaves the length of the snake
    and the score as they were; one that ate adds exactly one cell and
    exactly one point.  Hence along the passes of one game the score never
    goes down, and the score handed back is not under the one started
    from. *)
Theorem C6_length_and_score :
  forall height width box g w,
    (forall key nh g' w',
        tick height width box key g w = Running g' w' ->
        next_head key g = Some nh ->
        (nh <> food g ->
         List.length (snake g') = List.length (snake g) /\ score g' = score g)
        /\ (nh = food g ->
            List.length (snake g') = S (List.length (snake g))
            /\ score g' = score g + 1))
    /\ (forall keys g' w',
           ticks height width box keys g w = Pending g' w' ->
           score g <= score g')
    /\ (forall keys site s g' w' rest,
           ticks height width box keys g w = GameOver site s g' w' rest ->
           score g <= s /\ s = score g').
Proof.
  intros height width box g w. split.
  - intros key nh g' w' Ht Hn.
    apply next_head_inv in Hn. destruct Hn as (d0 & h0 & b0 & Hin0 & Hs0 & ->).
    apply tick_running_inv in Ht.
    destruct Ht as (d & head & body & Hin & Hs & _ & _ & Hcase).
    rewrite Hin in Hin0. inversion Hin0; subst d0.
    rewrite Hs in Hs0. inversion Hs0; subst h0 b0. cbv zeta in Hcase.
    destruct Hcase as [[Hf (g2 & w2 & He & -> & _)] | [Hf [-> _]]].
    + apply eat_inv in He. destruct He as (f & rest & _ & -> & _).
      split; [congruence|]. intros _. simpl. auto.
    + split; [|congruence]. intros _. unfold drop_tail.
      cbn [fst snake score]. rewrite length_removelast_cons. auto.
  - split.
    + intros keys. apply (ticks_score height width box keys g w).
    + intros keys. apply (ticks_score height width box keys g w).
Qed.

(** ** The chain of the snake *)

Lemma move_adjacent (d : Z) (head : cell) :
  is_arrow d = true -> adjacent (move d head) head.
Proof.
  intros Hd. apply is_arrow_inv in Hd. destruct Hd as [dir ->].
  unfold adjacent. destruct dir; vm_compute key_of; unfold move; simpl; lia.
Qed.

Lemma adjacent_neq (a b : cell) : adjacent a b -> a <> b.
Proof.
  unfold adjacent. intros H E. subst b. lia.
Qed.

Lemma connected_removelast (l : list cell) :
  connected l -> connected (removelast l).
Proof.
  induction l as [|a l IH]; [auto|].
  destruct l as [|b l]; [auto|].
  intros [Hab Hc]. specialize (IH Hc).
  change (removelast (a :: b :: l)) with (a :: removelast (b :: l)).
  destruct l as [|c l]; [exact I|].
  change (removelast (b :: c :: l)) with (b :: removelast (c :: l)) in *.
  split; assumption.
Qed.

Lemma removelast_cons_nonempty (a b : cell) (l : list cell) :
  removelast (a :: b :: l) <> [].
Proof. discriminate. Qed.

Lemma new_game_inv height width w g w' :
  new_game height width w = Ok (g, w') -> game_inv g.
Proof.
  unfold new_game, bind.
  destruct (create_food _ _ _) as [[food0 rest]| |]; try discriminate.
  intros E. inversion E; subst. unfold game_inv. simpl.
  split; [reflexivity|]. split; [discriminate | exact I].
Qed.

Lemma tick_inv height width box key g w g' w' :
  game_inv g ->
  tick height width box key g w = Running g' w' ->
  game_inv g'.
Proof.
  intros (Hd & Hne & Hc) Ht. apply tick_running_inv in Ht.
  destruct Ht as (d & head & body & Hin & Hs & _ & _ & Hcase). cbv zeta in Hcase.
  pose proof (handle_input_arrow _ _ _ Hd Hin) as Hd'.
  pose proof (move_adjacent d head Hd') as Hadj.
  assert (Hc1 : connected (move d head :: snake g)).
  { rewrite Hs. split; [assumption | rewrite <- Hs; assumption]. }
  destruct Hcase as [[_ (g2 & w2 & He & -> & _)] | [_ [-> _]]].
  - apply eat_inv in He. destruct He as (f & rest & _ & -> & _).
    unfold game_inv. simpl. split; [assumption|]. split; [discriminate | exact Hc1].
  - unfold game_inv, drop_tail. cbn [fst snake direction].
    split; [assumption|]. split.
    + rewrite Hs. apply removelast_cons_nonempty.
    + apply connected_removelast. exact Hc1.
Qed.

Lemma reachable_inv height width g w :
  reachable height width g w -> game_inv g.
Proof.
  induction 1 as [w g w' Hn | g w key g' w' _ IH Ht].
  - eapply new_game_inv; eassumption.
  - eapply tick_inv; eassumption.
Qed.

(** The states in which a run of [game_loop] waits for its next key are
    states of that game. *)
Lemma ticks_pending_reachable height width keys :
  forall g w g' w',
    reachable height width g w ->
    ticks height width (arena height width) keys g w = Pending g' w' ->
    exists w1,
      reachable height width g' w1
      /\ w' = display_score (score g') height width w1.
Proof.
  induction keys as [|key keys IH]; intros g w g' w' Hr; simpl.
  - intros E. inversion E; subst. exists w. split; [assumption | reflexivity].
  - destruct (tick height width (arena height width) key g
                (display_score (score g) height width w))
      as [g1 w1|site1 s1 g1 w1|e|] eqn:Ht; try discriminate.
    apply IH. eapply reach_tick; eassumption.
Qed.

Lemma game_loop_pending_reachable height width keys w g' :
  pending_state (game_loop height width keys w) = Some g' ->
  exists w1, reachable height width g' w1.
Proof.
  unfold game_loop.
  destruct (new_game height width w) as [[g0 w0]| |] eqn:Hn; try discriminate.
  destruct (ticks height width (arena height width) keys g0 w0)
    as [site s g1 w1 rest|g1 w1|e|] eqn:Ht; try discriminate.
  simpl. intros E. inversion E; subst.
  destruct (ticks_pending_reachable height width keys g0 w0 g' w1) as (w2 & Hr & _).
  - eapply reach_new. exact Hn.
  - exact Ht.
  - exists w2. exact Hr.
Qed.

(** C10: in every state of a game the cells of the snake form a chain,
    each one unit from the next in exactly one coordinate.  The head a
    pass tries is one unit from the old head, hence a different cell: the
    self check never matches the cell at index 1. *)
Theorem C10_snake_connected :
  forall height width g w,
    reachable height width g w ->
    connected (snake g)
    /\ forall key nh,
        next_head key g = Some nh ->
        exists head body,
          snake g = head :: body
          /\ adjacent nh head /\ nh <> head /\ cell_eqb nh head = false.
Proof.
  intros height width g w Hr. apply reachable_inv in Hr.
  destruct Hr as (Hd & _ & Hc). split; [assumption|].
  intros key nh Hn. apply next_head_inv in Hn.
  destruct Hn as (d & head & body & Hin & Hs & ->).
  pose proof (move_adjacent d head (handle_input_arrow _ _ _ Hd Hin)) as Hadj.
  exists head, body. split; [assumption|]. split; [assumption|].
  pose proof (adjacent_neq _ _ Hadj) as Hneq.
  split; [assumption | apply cell_eqb_neq; assumption].
Qed.

(** ** Food placement *)

Lemma randint_range lo hi draws n rest :
  randint lo hi draws = Ok (n, rest) -> lo <= n <= hi.
Proof.
  unfold randint. destruct (hi <? lo) eqn:Hr; [discriminate|].
  apply Z.ltb_ge in Hr. destruct draws as [|raw draws']; [discriminate|].
  intros E. inversion E; subst.
  pose proof (Z.mod_pos_bound (raw - lo) (hi - lo + 1)). lia.
Qed.

(** The loop of [create_food], one round at a time, in terms of
    [randint]. *)
Lemma create_food_unfold cells box draws :
  create_food cells box draws
  = ('(r, d1) <- randint (fst (fst box) + 1) (fst (snd box) - 1) draws ;;
     '(c, d2) <- randint (snd (fst box) + 1) (snd (snd box) - 1) d1 ;;
     if mem (r, c) cells then create_food cells box d2 else Ok ((r, c), d2)).
Proof.
  unfold randint, bind.
  destruct draws as [|raw_r [|raw_c draws2]]; simpl;
    destruct (fst (snd box) - 1 <? fst (fst box) + 1);
    destruct (snd (snd box) - 1 <? snd (fst box) + 1); reflexivity.
Qed.

Lemma create_food_ok cells box :
  forall draws food rest,
    create_food cells box draws = Ok (food, rest) ->
    ~ In food cells /\ inside box food.
Proof.
  assert (H : forall draws,
             (forall food rest, create_food cells box draws = Ok (food, rest) ->
                                ~ In food cells /\ inside box food)
             /\ (forall x food rest,
                    create_food cells box (x :: draws) = Ok (food, rest) ->
                    ~ In food cells /\ inside box food)).
  { induction draws as [|y draws [IH0 IH1]].
    - split.
      + intros food rest. rewrite create_food_unfold. unfold randint, bind.
        destruct (_ <? _); discriminate.
      + intros x food rest. rewrite create_food_unfold. unfold randint, bind.
        destruct (_ <? _); [discriminate|]. destruct (_ <? _); discriminate.
    - split; [exact (IH1 y)|].
      intros x food rest. rewrite create_food_unfold.
      destruct (randint (fst (fst box) + 1) (fst (snd box) - 1) (x :: y :: draws))
        as [[r d1]| |] eqn:Hr; try discriminate.
      assert (d1 = y :: draws) as ->.
      { unfold randint in Hr. destruct (_ <? _); [discriminate|]. congruence. }
      apply randint_range in Hr. unfold bind at 1.
      destruct (randint (snd (fst box) + 1) (snd (snd box) - 1) (y :: draws))
        as [[c d2]| |] eqn:Hc; try discriminate.
      assert (d2 = draws) as ->.
      { unfold randint in Hc. destruct (_ <? _); [discriminate|]. congruence. }
      apply randint_range in Hc. unfold bind.
      destruct (mem (r, c) cells) eqn:Hm.
      + apply IH0.
      + intros E. inversion E; subst. split.
        * apply mem_not_In. assumption.
        * unfold inside. simpl. lia. }
  intros draws. apply (H draws).
Qed.

Lemma create_food_no_raise cells box :
  fst (fst box) + 1 <= fst (snd box) - 1 ->
  snd (fst box) + 1 <= snd (snd box) - 1 ->
  forall draws e, create_food cells box draws <> Raise e.
Proof.
  destruct box as [[top left] [bottom right]]. simpl fst. simpl snd.
  intros Hr Hc. apply Z.ltb_ge in Hr. apply Z.ltb_ge in Hc.
  assert (H : forall draws,
             (forall e, create_food cells (top, left, (bottom, right)) draws
                        <> Raise e)
             /\ (forall x e,
                    create_food cells (top, left, (bottom, right)) (x :: draws)
                    <> Raise e)).
  { induction draws as [|y draws [IH0 IH1]].
    - split; intros; rewrite create_food_unfold; unfold randint, bind;
        simpl fst; simpl snd; rewrite Hr; try rewrite Hc; discriminate.
    - split; [exact (IH1 y)|]. intros x e.
      rewrite create_food_unfold. unfold randint, bind.
      simpl fst; simpl snd. rewrite Hr, Hc.
      destruct (mem _ cells); [apply IH0 | discriminate]. }
  intros draws. apply (H draws).
Qed.

Lemma create_food_first_free cells box c draws :
  inside box c -> ~ In c cells ->
  create_food cells box (fst c :: snd c :: draws) = Ok (c, draws).
Proof.
  destruct box as [[top left] [bottom right]], c as [r k].
  unfold inside. simpl fst. simpl snd. intros [Hr Hc] Hn.
  rewrite create_food_unfold. unfold randint, bind. simpl fst. simpl snd.
  replace (bottom - 1 <? top + 1) with false by (symmetry; apply Z.ltb_ge; lia).
  replace (right - 1 <? left + 1) with false by (symmetry; apply Z.ltb_ge; lia).
  rewrite !Z.mod_small by lia.
  replace (top + 1 + (r - (top + 1))) with r by lia.
  replace (left + 1 + (k - (left + 1))) with k by lia.
  apply mem_not_In in Hn. rewrite Hn. reflexivity.
Qed.

Lemma create_food_starved cells box :
  forall draws,
    create_food cells box draws = Starved ->
    Forall (fun c => In c cells) (samples box draws).
Proof.
  assert (H : forall draws,
             (create_food cells box draws = Starved ->
              Forall (fun c => In c cells) (samples box draws))
             /\ (forall x, create_food cells box (x :: draws) = Starved ->
                           Forall (fun c => In c cells) (samples box (x :: draws)))).
  { induction draws as [|y draws [IH0 IH1]].
    - split; intros; constructor.
    - split; [exact (IH1 y)|]. intros x.
      rewrite create_food_unfold. unfold randint, bind.
      destruct (_ <? _); [discriminate|]. destruct (_ <? _); [discriminate|].
      cbn [samples].
      destruct (mem _ cells) eqn:Hm; [|discriminate].
      intros E. constructor; [apply mem_In; exact Hm | apply IH0; exact E]. }
  intros draws. apply (H draws).
Qed.

Lemma create_food_first_off_snake cells box :
  forall draws food rest,
    create_food cells box draws = Ok (food, rest) ->
    exists before,
      samples box draws = before ++ food :: samples box rest
      /\ Forall (fun c => In c cells) before.
Proof.
  assert (H : forall draws,
             (forall food rest,
                 create_food cells box draws = Ok (food, rest) ->
                 exists before,
                   samples box draws = before ++ food :: samples box rest
                   /\ Forall (fun c => In c cells) before)
             /\ (forall x food rest,
                    create_food cells box (x :: draws) = Ok (food, rest) ->
                    exists before,
                      samples box (x :: draws) = before ++ food :: samples box rest
                      /\ Forall (fun c => In c cells) before)).
  { induction draws as [|y draws [IH0 IH1]].
    - split.
      + intros food rest. rewrite create_food_unfold. unfold randint, bind.
        destruct (_ <? _); discriminate.
      + intros x food rest. rewrite create_food_unfold. unfold randint, bind.
        destruct (_ <? _); [discriminate|]. destruct (_ <? _); discriminate.
    - split; [exact (IH1 y)|]. intros x food rest.
      rewrite create_food_unfold. unfold randint, bind.
      destruct (_ <? _); [discriminate|]. destruct (_ <? _); [discriminate|].
      cbn [samples].
      destruct (mem _ cells) eqn:Hm.
      + intros E. apply IH0 in E. destruct E as (before & Hs & Hall).
        eexists (_ :: before). rewrite Hs. split; [reflexivity|].
        constructor; [apply mem_In; exact Hm | exact Hall].
      + intros E. inversion E; subst. exists []. split; [reflexivity | constructor]. }
  intros draws. apply (H draws).
Qed.


(** C5: when some cell strictly inside the border is free of the snake,
    food placement does not fail; whatever cell it returns is on no cell of
    the snake and strictly inside the border lines, and is the first cell
    sampled off the snake; it returns as soon as a draw falls on a free
    cell, and is left without a result only when every cell sampled so far
    was on the snake; and the assignment of the new food leaves snake,
    score and direction as they were. *)
Theorem C5_create_food :
  forall cells box draws,
    (exists c, inside box c /\ ~ In c cells) ->
    (forall e, create_food cells box draws <> Raise e)
    /\ (forall food rest,
           create_food cells box draws = Ok (food, rest) ->
           ~ In food cells /\ inside box food
           /\ exists before,
               samples box draws = before ++ food :: samples box rest
               /\ Forall (fun c => In c cells) before)
    /\ (forall c,
           inside box c -> ~ In c cells ->
           create_food cells box (fst c :: snd c :: draws) = Ok (c, draws))
    /\ (create_food cells box draws = Starved ->
        Forall (fun c => In c cells) (samples box draws))
    /\ (forall g w g' w',
           snake g = cells -> entropy w = draws ->
           place_food box g w = Ok (g', w') ->
           snake g' = snake g /\ score g' = score g
           /\ direction g' = direction g
           /\ poll_timeout w' = poll_timeout w /\ screen w' = screen w).
Proof.
  intros cells box draws (c0 & [Hr0 Hc0] & _).
  split.
  { intros e. apply create_food_no_raise;
      destruct box as [[top left] [bottom right]]; simpl in *; lia. }
  split.
  { intros food rest E. pose proof (create_food_ok _ _ _ _ _ E) as [Hn Hi].
    split; [exact Hn|]. split; [exact Hi|].
    eapply create_food_first_off_snake. exact E. }
  split; [intros c; apply create_food_first_free|].
  split; [apply create_food_starved|].
  intros g w g' w' _ _. unfold place_food, bind.
  destruct (create_food (snake g) box (entropy w)) as [[f rest]| |];
    try discriminate.
  intros E. inversion E; subst. simpl. auto.
Qed.

(** ** The size check of [main] *)

Lemma emit_emit (a b : list Event) (w : World) :
  emit b (emit a w) = emit (a ++ b) w.
Proof. unfold emit. simpl. rewrite app_assoc. reflexivity. Qed.

Lemma emit_nil (w : World) : emit [] w = w.
Proof. destruct w. unfold emit. simpl. rewrite app_nil_r. reflexivity. Qed.

Lemma too_small_test (size : Z * Z) :
  too_small size <-> (fst size <? 10) || (snd size <? 30) = true.
Proof.
  unfold too_small. rewrite orb_true_iff, !Z.ltb_lt. reflexivity.
Qed.

Lemma main_pass_too_small keys size seen sizes w :
  too_small size ->
  main_pass keys (size :: seen :: sizes) w
  = TooSmall sizes (emit (too_small_screen seen) w).
Proof.
  intros Hs. apply too_small_test in Hs.
  destruct size as [height width], seen as [height' width'].
  unfold main_pass. simpl fst in Hs. simpl snd in Hs. rewrite Hs.
  unfold display_too_small_message. rewrite !emit_emit. reflexivity.
Qed.

Lemma main_pass_large_enough keys size sizes w :
  ~ too_small size ->
  forall sizes' w', main_pass keys (size :: sizes) w <> TooSmall sizes' w'.
Proof.
  intros Hs sizes' w'. rewrite too_small_test in Hs.
  destruct size as [height width]. unfold main_pass.
  simpl fst in Hs. simpl snd in Hs.
  destruct ((height <? 10) || (width <? 30)); [congruence|].
  destruct (game_loop height width keys w) as [site s g w1 keys1|g w1|e|];
    try discriminate.
  destruct (display_game_over s keys1 sizes w1) as [[[[again k2] s2] w2]|];
    discriminate.
Qed.

Lemma passes_too_small keys sizes :
  forall polls n w,
    Forall (fun p => too_small (fst p)) polls ->
    passes (List.length polls + n) keys (polled polls ++ sizes) w
    = passes n keys sizes
        (emit (List.concat (map (fun p => too_small_screen (snd p)) polls)) w).
Proof.
  induction polls as [|[checked shown] polls IH]; intros n w Hall.
  - simpl. rewrite emit_nil. reflexivity.
  - inversion Hall as [|p ps Hp Hps]; subst.
    change (passes (S (List.length polls + n)) keys
              (checked :: shown :: (polled polls ++ sizes)) w
            = passes n keys sizes
                (emit (too_small_screen shown
                       ++ List.concat (map (fun p => too_small_screen (snd p)) polls))
                   w)).
    cbn [passes]. rewrite (main_pass_too_small _ _ _ _ _ Hp).
    rewrite IH by assumption. rewrite emit_emit. reflexivity.
Qed.

(** C8: whenever the size [main] is told has height < 10 or width < 30,
    the pass puts the undersized message on a cleared screen, sleeps, and
    goes back to ask the size again; no game is started on the way (no key
    and no random value is consumed, nothing else is drawn).  This repeats
    for as long as the sizes told are under the minimum, and a size at or
    over the minimum is not rejected. *)
Theorem C8_undersized_terminal :
  forall keys sizes w,
    (forall size seen,
        too_small size ->
        main_pass keys (size :: seen :: sizes) w
        = TooSmall sizes (emit (too_small_screen seen) w))
    /\ (forall polls n,
           Forall (fun p => too_small (fst p)) polls ->
           passes (List.length polls + n) keys (polled polls ++ sizes) w
           = passes n keys sizes
               (emit (List.concat (map (fun p => too_small_screen (snd p)) polls)) w))
    /\ (forall size,
           ~ too_small size ->
           forall sizes' w',
             main_pass keys (size :: sizes) w <> TooSmall sizes' w').
Proof.
  intros keys sizes w. split.
  - intros size seen. apply main_pass_too_small.
  - split.
    + intros polls n. apply passes_too_small.
    + intros size. apply main_pass_large_enough.
Qed.

(** * The theorems at concrete states *)

Lemma C1_self_check_before_trim_witness :
  next_head KEY_UP square_snake = Some (12, 22)
  /\ hits_wall (arena 24 80) (12, 22) = false
  /\ last (snake square_snake) (0, 0) = (12, 22)
  /\ exists d,
      handle_input (direction square_snake) KEY_UP = Steer d
      /\ tick 24 80 (arena 24 80) KEY_UP square_snake (blank [])
         = Returned AtSelf (score square_snake)
             {| snake := (12, 22) :: snake square_snake; direction := d;
                food := food square_snake; score := score square_snake |}
             (blank []).
Proof.
  split; [reflexivity|]. split; [reflexivity|]. split; [reflexivity|].
  exact (proj2 (proj2 (C1_self_check_before_trim 24 80 (arena 24 80) KEY_UP
                         square_snake (blank []) (12, 22) eq_refl eq_refl))
           eq_refl).
Defined.

Lemma C3_wall_collision_witness :
  next_head NO_KEY edge_snake = Some (12, 78)
  /\ 78 >= snd (snd (arena 24 80))
  /\ exists d,
      handle_input (direction edge_snake) NO_KEY = Steer d
      /\ tick 24 80 (arena 24 80) NO_KEY edge_snake (blank [])
         = Returned AtWall (score edge_snake)
             {| snake := (12, 78) :: snake edge_snake; direction := d;
                food := food edge_snake; score := score edge_snake |}
             (blank []).
Proof.
  split; [reflexivity|]. split; [simpl; lia|].
  apply (proj1 (proj2 (C3_wall_collision 24 80 (arena 24 80) NO_KEY
                         edge_snake (blank []) (12, 78) eq_refl))).
  simpl. lia.
Defined.

Lemma C5_create_food_witness :
  (exists c, inside (arena 24 80) c /\ ~ In c [(12, 20)])
  /\ create_food [(12, 20)] (arena 24 80) [12; 20; 5; 5] = Ok ((5, 5), [])
  /\ ~ In (5, 5) [(12, 20)]
  /\ inside (arena 24 80) (5, 5).
Proof.
  assert (Hfree : exists c, inside (arena 24 80) c /\ ~ In c [(12, 20)]).
  { exists (2, 2). split.
    - unfold inside. simpl. lia.
    - simpl. intros [E|[]]. discriminate. }
  split; [exact Hfree|]. split; [reflexivity|].
  destruct (proj1 (proj2 (C5_create_food [(12, 20)] (arena 24 80)
                            [12; 20; 5; 5] Hfree))
              (5, 5) [] eq_refl) as (Hoff & Hin & _).
  split; [exact Hoff | exact Hin].
Defined.

Lemma C6_length_and_score_witness :
  exists g' w',
    tick 24 80 (arena 24 80) NO_KEY hungry_snake (blank [7; 7]) = Running g' w'
    /\ next_head NO_KEY hungry_snake = Some (12, 21)
    /\ (12, 21) = food hungry_snake
    /\ List.length (snake g') = S (List.length (snake hungry_snake))
    /\ score g' = score hungry_snake + 1.
Proof.
  eexists. eexists.
  split; [vm_compute; reflexivity|].
  split; [reflexivity|]. split; [reflexivity|].
  exact (proj2 (proj1 (C6_length_and_score 24 80 (arena 24 80) hungry_snake
                         (blank [7; 7]))
                  NO_KEY (12, 21) _ _ eq_refl eq_refl)
           eq_refl).
Defined.

Lemma C7_tick_interval_witness :
  exists g' w',
    tick 24 80 (arena 24 80) NO_KEY hungry_snake (blank [7; 7]) = Running g' w'
    /\ next_head NO_KEY hungry_snake = Some (food hungry_snake)
    /\ score g' = score hungry_snake + 1
    /\ poll_timeout w' = new_timeout (score g')
    /\ new_timeout 30 <= new_timeout 25.
Proof.
  eexists. eexists.
  split; [vm_compute; reflexivity|].
  split; [reflexivity|].
  pose proof C7_tick_interval as (_ & Hmono & _ & _ & _ & Hset).
  destruct (Hset 24 80 (arena 24 80) NO_KEY hungry_snake (blank [7; 7]) _ _
              eq_refl eq_refl) as [Hscore Htimeout].
  split; [exact Hscore|]. split; [exact Htimeout|].
  apply Hmono. lia.
Defined.

Lemma C8_undersized_terminal_witness :
  too_small (8, 20)
  /\ main_pass [KEY_UP] [(8, 20); (8, 20); (24, 80)] (blank [5; 5])
     = TooSmall [(24, 80)] (emit (too_small_screen (8, 20)) (blank [5; 5])).
Proof.
  assert (Hs : too_small (8, 20)) by (left; simpl; lia).
  split; [exact Hs|].
  exact (proj1 (C8_undersized_terminal [KEY_UP] [(24, 80)] (blank [5; 5]))
           (8, 20) (8, 20) Hs).
Defined.

Lemma C9_other_keys_ignored_witness :
  is_arrow (ord "Q") = false
  /\ ord "Q" <> ord "q"
  /\ handle_input (direction lone_snake) (ord "Q") = Steer (direction lone_snake)
  /\ tick 24 80 (arena 24 80) (ord "Q") lone_snake (blank [])
     = tick 24 80 (arena 24 80) NO_KEY lone_snake (blank []).
Proof.
  assert (Hq : ord "Q" <> ord "q") by discriminate.
  split; [reflexivity|]. split; [exact Hq|].
  pose proof (C9_other_keys_ignored 24 80 (arena 24 80) (ord "Q") lone_snake
                (blank []) eq_refl Hq) as (Hin & Hsame & _).
  split; [exact Hin | exact Hsame].
Defined.

Lemma C10_snake_connected_witness :
  exists w,
    reachable 24 80 square_snake w
    /\ connected (snake square_snake)
    /\ exists head body,
        snake square_snake = head :: body
        /\ next_head KEY_UP square_snake = Some (12, 22)
        /\ (12, 22) <> head.
Proof.
  destruct (game_loop_pending_reachable 24 80
              [NO_KEY; NO_KEY; NO_KEY; KEY_DOWN; KEY_LEFT]
              (blank [12; 21; 12; 22; 12; 23; 2; 2]) square_snake)
    as (w1 & Hr).
  - vm_compute. reflexivity.
  - exists w1. split; [exact Hr|].
    destruct (C10_snake_connected 24 80 square_snake w1 Hr) as [Hc Hstep].
    split; [exact Hc|].
    destruct (Hstep KEY_UP (12, 22) eq_refl) as (head & body & Hs & _ & Hneq & _).
    exists head, body. split; [exact Hs|]. split; [reflexivity | exact Hneq].
Defined.

(** * Further properties of the game *)

(** ** What a pass does to the locals *)

Lemma new_game_shape height width w g w' :
  new_game height width w = Ok (g, w') ->
  snake g = [(height / 2, width / 4)]
  /\ direction g = KEY_RIGHT
  /\ score g = 0
  /\ poll_timeout w' = poll_timeout w
  /\ exists rest,
      create_food [(height / 2, width / 4)] (arena height width) (entropy w)
      = Ok (food g, rest).
Proof.
  unfold new_game, bind. cbn [entropy emit].
  destruct (create_food _ _ (entropy w)) as [[food0 rest]| |] eqn:Hc;
    try discriminate.
  intros E. inversion E; subst. simpl.
  repeat (split; [reflexivity|]). exists rest. reflexivity.
Qed.

Lemma tick_running_shape height width box key g w g' w' :
  tick height width box key g w = Running g' w' ->
  exists d head body,
    handle_input (direction g) key = Steer d
    /\ snake g = head :: body
    /\ direction g' = d
    /\ hits_wall box (move d head) = false
    /\ ~ In (move d head) (snake g)
    /\ ((move d head = food g
         /\ snake g' = move d head :: snake g
         /\ score g' = score g + 1
         /\ poll_timeout w' = new_timeout (score g')
         /\ exists rest,
             create_food (move d head :: snake g) box (entropy w)
             = Ok (food g', rest))
        \/ (move d head <> food g
            /\ snake g' = removelast (move d head :: snake g)
            /\ score g' = score g
            /\ poll_timeout w' = poll_timeout w
            /\ food g' = food g)).
Proof.
  intros Ht. apply tick_running_inv in Ht.
  destruct Ht as (d & head & body & Hin & Hs & Hw & Hm & Hcase).
  exists d, head, body. cbv zeta in Hcase.
  split; [assumption|]. split; [assumption|].
  apply mem_not_In in Hm.
  destruct Hcase as [[Hf (g2 & w2 & He & -> & ->)] | [Hf [-> ->]]].
  - apply eat_inv in He. destruct He as (f & rest & Hc & -> & ->).
    cbn [snake direction food score] in *.
    split; [reflexivity|]. split; [assumption|]. split; [assumption|].
    left. split; [assumption|]. split; [reflexivity|]. split; [reflexivity|].
    split; [reflexivity|]. exists rest. exact Hc.
  - unfold drop_tail. cbn [fst snd snake direction food score].
    split; [reflexivity|]. split; [assumption|]. split; [assumption|].
    right. split; [assumption|]. repeat (split; [reflexivity|]). reflexivity.
Qed.

Lemma tick_returned_world height width box key g w site s g' w' :
  tick height width box key g w = Returned site s g' w' -> w' = w.
Proof.
  unfold tick.
  destruct (handle_input (direction g) key) as [d|].
  - destruct (snake g) as [|head body]; [discriminate|].
    destruct (hits_wall box (move d head)).
    { intros E; inversion E; reflexivity. }
    destruct (mem (move d head) (head :: body)).
    { intros E; inversion E; reflexivity. }
    destruct (if cell_eqb _ _ then _ else _) as [[g2 w2]| |]; discriminate.
  - intros E; inversion E; reflexivity.
Qed.

(** ** Lists without their last element *)

Lemma In_removelast (x : cell) (l : list cell) :
  In x (removelast l) -> In x l.
Proof.
  induction l as [|a l IH]; [auto|].
  destruct l as [|b l]; [intros []|].
  change (removelast (a :: b :: l)) with (a :: removelast (b :: l)).
  intros [E|Hi]; [left; assumption | right; apply IH; assumption].
Qed.

Lemma NoDup_removelast (l : list cell) : NoDup l -> NoDup (removelast l).
Proof.
  induction l as [|a l IH]; [auto|].
  destruct l as [|b l]; [intros _; constructor|].
  change (removelast (a :: b :: l)) with (a :: removelast (b :: l)).
  intros Hn. inversion Hn as [|x xs Hx Hxs]; subst.
  constructor; [|apply IH; assumption].
  intros Hi. apply Hx. apply In_removelast. assumption.
Qed.

Lemma Forall_removelast (P : cell -> Prop) (l : list cell) :
  Forall P l -> Forall P (removelast l).
Proof.
  intros Hall. apply Forall_forall. intros x Hx.
  apply In_removelast in Hx. revert x Hx. apply Forall_forall. assumption.
Qed.

(** ** Occupancy: no cell twice, no food under the snake *)

Lemma reachable_occupancy height width g w :
  reachable height width g w ->
  NoDup (snake g) /\ ~ In (food g) (snake g).
Proof.
  intros Hr.
  induction Hr as [w g w' Hn | g w key g' w' _ [IHd IHf] Ht].
  - apply new_game_shape in Hn.
    destruct Hn as (Hs & _ & _ & _ & rest & Hc).
    apply create_food_ok in Hc. destruct Hc as [Hoff _].
    rewrite Hs. split; [|assumption].
    constructor; [intros [] | constructor].
  - apply tick_running_shape in Ht.
    destruct Ht as (d & head & body & _ & _ & _ & _ & Hnot & Hcase).
    assert (Hnd : NoDup (move d head :: snake g)) by (constructor; assumption).
    destruct Hcase as [(_ & Hs & _ & _ & rest & Hc)
                      | (Hne & Hs & _ & _ & Hf)]; rewrite Hs.
    + apply create_food_ok in Hc. destruct Hc as [Hoff _].
      split; assumption.
    + split; [apply NoDup_removelast; assumption|].
      rewrite Hf. intros Hi. apply In_removelast in Hi.
      destruct Hi as [E|Hi]; [apply Hne; assumption | apply IHf; assumption].
Qed.

(** X4: in every state of a game no two cells of the snake coincide, and
    the food lies on no cell of the snake. *)
Theorem X4_cells_distinct_food_free :
  forall height width g w,
    reachable height width g w ->
    NoDup (snake g) /\ ~ In (food g) (snake g).
Proof.
  intros height width g w. apply reachable_occupancy.
Qed.

(** ** Length and score go together *)

Lemma reachable_length height width g w :
  reachable height width g w ->
  Z.of_nat (List.length (snake g)) = score g + 1.
Proof.
  intros Hr.
  induction Hr as [w g w' Hn | g w key g' w' _ IH Ht].
  - apply new_game_shape in Hn. destruct Hn as (Hs & _ & Hsc & _).
    rewrite Hs, Hsc. reflexivity.
  - apply tick_running_shape in Ht.
    destruct Ht as (d & head & body & _ & _ & _ & _ & _ & Hcase).
    destruct Hcase as [(_ & Hs & Hsc & _) | (_ & Hs & Hsc & _)];
      rewrite Hs, Hsc.
    + cbn [List.length]. lia.
    + rewrite length_removelast_cons. lia.
Qed.

Lemma reachable_score_nonneg height width g w :
  reachable height width g w -> 0 <= score g.
Proof.
  intros Hr. pose proof (reachable_length _ _ _ _ Hr) as Hl.
  apply reachable_inv in Hr. destruct Hr as (_ & Hne & _).
  destruct (snake g); [congruence|]. cbn [List.length] in Hl. lia.
Qed.

(** X3: in every state of a game the snake has exactly one cell more than
    the score, so the score is never negative; and the score a game hands
    back is never negative. *)
Theorem X3_length_is_score_plus_one :
  forall height width,
    (forall g w,
        reachable height width g w ->
        Z.of_nat (List.length (snake g)) = score g + 1 /\ 0 <= score g)
    /\ (forall keys w s,
           final_score (game_loop height width keys w) = Some s -> 0 <= s).
Proof.
  intros height width. split.
  - intros g w Hr. split;
      [eapply reachable_length | eapply reachable_score_nonneg]; eassumption.
  - intros keys w s. unfold game_loop.
    destruct (new_game height width w) as [[g0 w0]| |] eqn:Hn; try discriminate.
    apply new_game_shape in Hn. destruct Hn as (_ & _ & Hsc & _).
    destruct (ticks height width (arena height width) keys g0 w0)
      as [site s1 g1 w1 rest|g1 w1|e|] eqn:Ht; try discriminate.
    simpl. intros E. inversion E; subst.
    apply (ticks_score height width (arena height width) keys g0 w0) in Ht.
    lia.
Qed.

(** ** The snake stays inside the border *)

Lemma not_hits_wall_inside (box : Box) (c : cell) :
  hits_wall box c = false -> inside box c.
Proof.
  intros Hw. unfold inside.
  destruct (Z_le_gt_dec (fst c) (fst (fst box))) as [H1|H1].
  { exfalso. assert (hits_wall box c = true) by (apply hits_wall_spec; auto).
    congruence. }
  destruct (Z_ge_lt_dec (fst c) (fst (snd box))) as [H2|H2].
  { exfalso. assert (hits_wall box c = true) by (apply hits_wall_spec; auto).
    congruence. }
  destruct (Z_le_gt_dec (snd c) (snd (fst box))) as [H3|H3].
  { exfalso. assert (hits_wall box c = true) by (apply hits_wall_spec; auto).
    congruence. }
  destruct (Z_ge_lt_dec (snd c) (snd (snd box))) as [H4|H4].
  { exfalso. assert (hits_wall box c = true) by (apply hits_wall_spec; auto).
    congruence. }
  lia.
Qed.

Lemma reachable_inside height width g w :
  8 <= width ->
  reachable height width g w ->
  Forall (inside (arena height width)) (snake g)
  /\ inside (arena height width) (food g).
Proof.
  intros Hwd Hr.
  induction Hr as [w g w' Hn | g w key g' w' _ [IHs IHf] Ht].
  - apply new_game_shape in Hn.
    destruct Hn as (Hs & _ & _ & _ & rest & Hc).
    apply create_food_ok in Hc. destruct Hc as [_ Hin].
    split; [|assumption]. rewrite Hs. constructor; [|constructor].
    unfold inside, arena in *. simpl in *.
    pose proof (Z.div_mod height 2). pose proof (Z.mod_pos_bound height 2).
    pose proof (Z.div_mod width 4). pose proof (Z.mod_pos_bound width 4).
    lia.
  - apply tick_running_shape in Ht.
    destruct Ht as (d & head & body & _ & _ & _ & Hw & _ & Hcase).
    apply not_hits_wall_inside in Hw.
    assert (Hall : Forall (inside (arena height width)) (move d head :: snake g))
      by (constructor; assumption).
    destruct Hcase as [(_ & Hs & _ & _ & rest & Hc)
                      | (_ & Hs & _ & _ & Hf)]; rewrite Hs.
    + apply create_food_ok in Hc. destruct Hc as [_ Hin].
      split; assumption.
    + split; [apply Forall_removelast; assumption|].
      rewrite Hf. assumption.
Qed.

(** X5: in a game on a terminal at least 8 columns wide, in every state all
    cells of the snake and the food lie strictly inside the border lines:
    the snake never sits on the border. *)
Theorem X5_snake_and_food_inside :
  forall height width g w,
    8 <= width ->
    reachable height width g w ->
    Forall (inside (arena height width)) (snake g)
    /\ inside (arena height width) (food g).
Proof.
  intros height width g w. apply reachable_inside.
Qed.

(** ** The head never goes back onto the cell behind it *)

Lemma no_way_back (cur req : Direction) (n : cell) :
  move (key_of (if Direction_eqb req (opposite cur) then cur else req))
    (move (key_of cur) n) <> n.
Proof.
  destruct n as [r c].
  destruct cur, req;
    cbv [Direction_eqb opposite key_of move KEY_UP KEY_DOWN KEY_LEFT KEY_RIGHT];
    simpl; intros E; inversion E; lia.
Qed.

Lemma steer_not_back (dir key d : Z) (n : cell) :
  is_arrow dir = true ->
  handle_input dir key = Steer d ->
  move d (move dir n) <> n.
Proof.
  intros Hd. apply is_arrow_inv in Hd. destruct Hd as [cur ->].
  unfold handle_input. destruct (is_arrow key) eqn:Hk.
  - apply is_arrow_inv in Hk. destruct Hk as [req ->].
    rewrite turn_key_of. intros E. inversion E; subst d. apply no_way_back.
  - destruct (key =? ord "q"); [discriminate|].
    intros E. inversion E; subst d.
    pose proof (no_way_back cur cur n) as Hb.
    destruct cur; exact Hb.
Qed.

Lemma reachable_heading height width g w :
  reachable height width g w -> heading_ok g.
Proof.
  intros Hr.
  induction Hr as [w g w' Hn | g w key g' w' _ IH Ht].
  - apply new_game_shape in Hn. destruct Hn as (Hs & _).
    unfold heading_ok. rewrite Hs. exact I.
  - apply tick_running_shape in Ht.
    destruct Ht as (d & head & body & _ & Hsn & Hd & _ & _ & Hcase).
    unfold heading_ok.
    destruct Hcase as [(_ & Hs & _) | (_ & Hs & _)]; rewrite Hs, Hd, Hsn.
    + reflexivity.
    + destruct body as [|b body]; [exact I | reflexivity].
Qed.

(** X6: in every state of a game with a snake of two cells or more, the
    head tried by a pass is never the cell right behind the head, whatever
    key was polled. *)
Theorem X6_never_onto_neck :
  forall height width g w key nh head neck rest,
    reachable height width g w ->
    snake g = head :: neck :: rest ->
    next_head key g = Some nh ->
    nh <> neck.
Proof.
  intros height width g w key nh head neck rest Hr Hs Hn.
  pose proof (reachable_heading _ _ _ _ Hr) as Hh.
  apply reachable_inv in Hr. destruct Hr as (Hd & _).
  apply next_head_inv in Hn. destruct Hn as (d & h0 & b0 & Hin & Hs0 & ->).
  rewrite Hs in Hs0. inversion Hs0; subst h0 b0.
  unfold heading_ok in Hh. rewrite Hs in Hh. rewrite Hh.
  eapply steer_not_back; eassumption.
Qed.

(** ** No self collision before the fourth cell *)

Lemma tick_self_inv height width box key g w s g' w' :
  tick height width box key g w = Returned AtSelf s g' w' ->
  exists d head body,
    handle_input (direction g) key = Steer d
    /\ snake g = head :: body
    /\ In (move d head) (snake g)
    /\ s = score g.
Proof.
  unfold tick.
  destruct (handle_input (direction g) key) as [d|]; [|discriminate].
  destruct (snake g) as [|head body] eqn:Hs; [discriminate|].
  destruct (hits_wall box (move d head)); [discriminate|].
  destruct (mem (move d head) (head :: body)) eqn:Hm.
  - intros E. inversion E; subst. exists d, head, body.
    split; [reflexivity|]. split; [reflexivity|].
    split; [apply mem_In; assumption | reflexivity].
  - destruct (if cell_eqb _ _ then _ else _) as [[g2 w2]| |]; discriminate.
Qed.

Lemma two_steps_not_one (a b c x : cell) :
  adjacent a b -> adjacent b c -> adjacent x a -> x <> c.
Proof.
  unfold adjacent. destruct a, b, c, x. simpl. intros H1 H2 H3 E.
  inversion E; subst. lia.
Qed.

(** X7: a game never ends through the self check before the snake has four
    cells: the score handed back by a self collision is at least 3. *)
Theorem X7_self_collision_needs_four_cells :
  forall height width g w key w0 s g' w',
    reachable height width g w ->
    tick height width (arena height width) key g w0 = Returned AtSelf s g' w' ->
    3 <= s /\ (4 <= List.length (snake g))%nat.
Proof.
  intros height width g w key w0 s g' w' Hr Ht.
  pose proof (reachable_length _ _ _ _ Hr) as Hl.
  pose proof (reachable_heading _ _ _ _ Hr) as Hh.
  pose proof (reachable_inv _ _ _ _ Hr) as (Hd & _ & Hc).
  apply tick_self_inv in Ht.
  destruct Ht as (d & head & body & Hin & Hs & Hi & ->).
  pose proof (move_adjacent d head (handle_input_arrow _ _ _ Hd Hin)) as Hadj.
  rewrite Hs in Hi, Hc, Hl |- *. unfold heading_ok in Hh. rewrite Hs in Hh.
  destruct Hi as [E|Hi]; [exfalso; exact (adjacent_neq _ _ Hadj (eq_sym E))|].
  destruct body as [|neck rest]; [destruct Hi|].
  destruct Hi as [E|Hi].
  { exfalso. rewrite Hh in E.
    exact (steer_not_back _ _ _ neck Hd Hin (eq_sym E)). }
  destruct rest as [|c rest]; [destruct Hi|].
  destruct Hc as (Hhn & Hnc & _).
  destruct Hi as [E|Hi].
  { exfalso. apply (two_steps_not_one head neck c (move d head)); auto. }
  destruct rest as [|c2 rest]; [destruct Hi|].
  cbn [List.length] in *. lia.
Qed.

(** ** What can be raised *)







(** ** The speed is carried from game to game *)

Lemma ticks_timeout height width box (t0 : Z) keys :
  forall g w,
    0 <= score g ->
    poll_timeout w = (if score g =? 0 then t0 else new_timeout (score g)) ->
    forall site s g' w' rest,
      ticks height width box keys g w = GameOver site s g' w' rest ->
      poll_timeout w' = (if s =? 0 then t0 else new_timeout s).
Proof.
  induction keys as [|key keys IH]; intros g w Hs Ht0 site s g' w' rest;
    simpl; [discriminate|].
  destruct (tick height width box key g (display_score (score g) height width w))
    as [g1 w1|site1 s1 g1 w1|e1|] eqn:Ht; try discriminate.
  - apply tick_running_shape in Ht.
    destruct Ht as (d & head & body & _ & _ & _ & _ & _ & Hcase).
    apply IH.
    + destruct Hcase as [(_ & _ & Hsc & _) | (_ & _ & Hsc & _)]; lia.
    + destruct Hcase as [(_ & _ & Hsc & Hp & _) | (_ & _ & Hsc & Hp & _)].
      * rewrite Hp. replace (score g1 =? 0) with false
          by (symmetry; apply Z.eqb_neq; lia). reflexivity.
      * rewrite Hp, Hsc. exact Ht0.
  - pose proof (tick_returned_score _ _ _ _ _ _ _ _ _ _ Ht) as [-> _].
    apply tick_returned_world in Ht. subst w1.
    intros E. inversion E; subst. exact Ht0.
Qed.

Lemma game_loop_timeout height width keys w site s g w' rest :
  game_loop height width keys w = GameOver site s g w' rest ->
  poll_timeout w' = (if s =? 0 then poll_timeout w else new_timeout s).
Proof.
  unfold game_loop.
  destruct (new_game height width w) as [[g0 w0]| |] eqn:Hn; try discriminate.
  apply new_game_shape in Hn. destruct Hn as (_ & _ & Hsc & Hp & _).
  apply ticks_timeout.
  - lia.
  - rewrite Hsc. simpl. exact Hp.
Qed.

Lemma display_game_over_world score keys sizes w again keys' sizes' w' :
  display_game_over score keys sizes w = Some (again, keys', sizes', w') ->
  poll_timeout w' = poll_timeout w /\ entropy w' = entropy w.
Proof.
  unfold display_game_over. destruct sizes as [|[height width] sizes1];
    [discriminate|].
  destruct (wait_yes_no keys) as [[a k]|]; [|discriminate].
  intros E. inversion E; subst. split; reflexivity.
Qed.

(** X10: a pass of [main] that played a game leaves the poll timeout at
    max(50, 100 - 2 * score) when the score is positive, and where it found
    it otherwise; nothing sets it back to 100, and the next game starts
    with the timeout it is handed. *)
Theorem X10_speed_carries_over :
  forall keys sizes w,
    (forall score again keys' sizes' w',
        main_pass keys sizes w = Played score again keys' sizes' w' ->
        poll_timeout w'
        = (if score =? 0 then poll_timeout w else new_timeout score))
    /\ (forall height width g w',
           new_game height width w = Ok (g, w') ->
           poll_timeout w' = poll_timeout w).
Proof.
  intros keys sizes w. split.
  - intros score again keys' sizes' w'. unfold main_pass.
    destruct sizes as [|[height width] sizes1]; [discriminate|].
    destruct ((height <? 10) || (width <? 30)).
    { destruct (display_too_small_message sizes1 _) as [[s2 w2]|]; discriminate. }
    destruct (game_loop height width keys w) as [site s g w1 keys1|g w1|e1|] eqn:Hg;
      try discriminate.
    destruct (display_game_over s keys1 sizes1 w1) as [[[[a k2] s2] w2]|] eqn:Hd;
      [|discriminate].
    intros E. inversion E; subst.
    apply display_game_over_world in Hd. destruct Hd as [Hp _].
    rewrite Hp. eapply game_loop_timeout. exact Hg.
  - intros height width g w' Hn. apply new_game_shape in Hn.
    destruct Hn as (_ & _ & _ & Hp & _). exact Hp.
Qed.

(** ** A full board *)

(** X11: when the arena has inner cells and the snake covers all of them,
    food placement never comes back, whatever is drawn: it neither returns
    a cell nor raises. *)
Theorem X11_full_board_never_returns :
  forall cells box draws,
    (exists c, inside box c) ->
    (forall c, inside box c -> In c cells) ->
    create_food cells box draws = Starved.
Proof.
  intros cells box draws (c0 & Hr0 & Hc0) Hfull.
  destruct (create_food cells box draws) as [[f rest]|e|] eqn:Hc.
  - apply create_food_ok in Hc. destruct Hc as [Hoff Hin].
    exfalso. apply Hoff, Hfull, Hin.
  - exfalso. revert Hc. apply create_food_no_raise;
      destruct box as [[top left] [bottom right]]; simpl in *; lia.
  - reflexivity.
Qed.

(** ** Where the texts are written *)

(** X12: the instruction line of the game is written on the last row at
    column width / 2 - 21; it lies within the width of the terminal exactly
    when the terminal has 42 columns or more, and its column is negative
    on every narrower terminal, those that pass the size check of [main]
    (30 columns) included. *)
Theorem X12_instructions_need_42_columns :
  forall height width w,
    display_instructions height width w
    = emit [AddStr (height - 1) (width / 2 - 21) instructions (color_pair 3)] w
    /\ (0 <= width / 2 - 21 /\ width / 2 - 21 + len instructions <= width
        <-> 42 <= width)
    /\ (width / 2 - 21 < 0 <-> width < 42)
    /\ (10 <= height -> 30 <= width -> ~ too_small (height, width)).
Proof.
  intros height width w.
  split; [reflexivity|].
  change (len instructions) with 42.
  pose proof (Z.div_mod width 2). pose proof (Z.mod_pos_bound width 2).
  split; [lia|]. split; [lia|].
  unfold too_small. simpl. lia.
Qed.

(** ** The start screen *)



(** ** The game-over prompt *)

Lemma wait_yes_no_skip before key rest :
  Forall (fun k => is_answer k = false) before ->
  is_answer key = true ->
  wait_yes_no (before ++ key :: rest) = Some (is_yes key, rest).
Proof.
  intros Hb Hk. induction Hb as [|k before Hk0 _ IH]; simpl.
  - unfold is_answer in Hk. fold (is_yes key). fold (is_no key).
    destruct (is_yes key); [reflexivity|]. simpl in Hk. rewrite Hk. reflexivity.
  - unfold is_answer in Hk0. apply orb_false_iff in Hk0. destruct Hk0 as [Hy Hn].
    fold (is_yes k). fold (is_no k). rewrite Hy, Hn. exact IH.
Qed.

Lemma wait_yes_no_some keys :
  forall again rest,
    wait_yes_no keys = Some (again, rest) ->
    exists before key,
      keys = before ++ key :: rest
      /\ Forall (fun k => is_answer k = false) before
      /\ is_answer key = true /\ again = is_yes key.
Proof.
  induction keys as [|k keys IH]; intros again rest; simpl; [discriminate|].
  fold (is_yes k). fold (is_no k).
  destruct (is_yes k) eqn:Hy.
  - intros E. inversion E; subst. exists [], k.
    split; [reflexivity|]. split; [constructor|].
    unfold is_answer. rewrite Hy. auto.
  - destruct (is_no k) eqn:Hn.
    + intros E. inversion E; subst. exists [], k.
      split; [reflexivity|]. split; [constructor|].
      unfold is_answer. rewrite Hy, Hn. auto.
    + intros E. apply IH in E. destruct E as (before & key & -> & Hb & Hk & ->).
      exists (k :: before), key. split; [reflexivity|].
      split; [|auto]. constructor; [|assumption].
      unfold is_answer. rewrite Hy, Hn. reflexivity.
Qed.

Lemma wait_yes_no_none keys :
  wait_yes_no keys = None <-> Forall (fun k => is_answer k = false) keys.
Proof.
  induction keys as [|k keys IH]; simpl.
  - split; [constructor | reflexivity].
  - fold (is_yes k). fold (is_no k). split.
    + destruct (is_yes k) eqn:Hy; [discriminate|].
      destruct (is_no k) eqn:Hn; [discriminate|].
      intros E. constructor; [|apply IH; assumption].
      unfold is_answer. rewrite Hy, Hn. reflexivity.
    + intros Hall. inversion Hall as [|x xs Hk Hks]; subst.
      unfold is_answer in Hk. apply orb_false_iff in Hk. destruct Hk as [Hy Hn].
      rewrite Hy, Hn. apply IH. assumption.
Qed.

(** X1: the game-over prompt throws away every key that is not y, Y, n or
    N (a poll that timed out included) and answers with the first key that
    is one of them: replay for y or Y, stop for n or N.  It reads the size
    once, keeps the keys after the answer, and leaves the poll timeout and
    the random source alone. *)
Theorem X1_game_over_prompt_answer :
  forall score before key rest size sizes w,
    Forall (fun k => is_answer k = false) before ->
    is_answer key = true ->
    exists w',
      display_game_over score (before ++ key :: rest) (size :: sizes) w
      = Some (is_yes key, rest, sizes, w')
      /\ poll_timeout w' = poll_timeout w
      /\ entropy w' = entropy w.
Proof.
  intros score before key rest [height width] sizes w Hb Hk.
  unfold display_game_over. rewrite (wait_yes_no_skip _ _ _ Hb Hk).
  eexists. split; [reflexivity|]. split; reflexivity.
Qed.

(** X2: once the size is known, the game-over prompt stays without an
    answer exactly when none of the keys to come is y, Y, n or N. *)
Theorem X2_game_over_prompt_blocks :
  forall score keys size sizes w,
    display_game_over score keys (size :: sizes) w = None
    <-> Forall (fun k => is_answer k = false) keys.
Proof.
  intros score keys [height width] sizes w.
  rewrite <- wait_yes_no_none. unfold display_game_over.
  destruct (wait_yes_no keys) as [[a k]|]; split; congruence.
Qed.

(** ** How [main] comes to an end *)

Lemma ticks_keys height width box keys :
  forall g w site s g' w' rest,
    ticks height width box keys g w = GameOver site s g' w' rest ->
    exists used, keys = used ++ rest.
Proof.
  induction keys as [|key keys IH]; intros g w site s g' w' rest; simpl;
    [discriminate|].
  destruct (tick height width box key g (display_score (score g) height width w))
    as [g1 w1|site1 s1 g1 w1|e1|]; try discriminate.
  - intros E. apply IH in E. destruct E as [used ->].
    exists (key :: used). reflexivity.
  - intros E. inversion E; subst. exists [key]. reflexivity.
Qed.

Lemma main_pass_played keys sizes w score again keys' sizes' w' :
  main_pass keys sizes w = Played score again keys' sizes' w' ->
  exists used key,
    keys = used ++ key :: keys'
    /\ is_answer key = true /\ again = is_yes key.
Proof.
  unfold main_pass. destruct sizes as [|[height width] sizes1]; [discriminate|].
  destruct ((height <? 10) || (width <? 30)).
  { destruct (display_too_small_message sizes1 _) as [[s2 w2]|]; discriminate. }
  destruct (game_loop height width keys w) as [site s g w1 keys1|g w1|e1|] eqn:Hg;
    try discriminate.
  unfold display_game_over. destruct sizes1 as [|[h2 w2] sizes2]; [discriminate|].
  destruct (wait_yes_no keys1) as [[a k2]|] eqn:Hw; [|discriminate].
  intros E. inversion E; subst.
  apply wait_yes_no_some in Hw. destruct Hw as (before & key & -> & _ & Hk & Ha).
  unfold game_loop in Hg.
  destruct (new_game height width w) as [[g0 w0]| |]; try discriminate.
  apply ticks_keys in Hg. destruct Hg as [used ->].
  exists (used ++ before), key. rewrite <- app_assoc. auto.
Qed.

Lemma passes_exit n :
  forall keys sizes w keys' sizes' w',
    passes n keys sizes w = Exited keys' sizes' w' ->
    exists used key,
      keys = used ++ key :: keys' /\ is_no key = true.
Proof.
  induction n as [|n IH]; intros keys sizes w keys' sizes' w'; simpl;
    [discriminate|].
  destruct (main_pass keys sizes w) as [s1 w1|sc again k1 s1 w1|e1|] eqn:Hp;
    try discriminate.
  - apply IH.
  - apply main_pass_played in Hp.
    destruct Hp as (used & key & -> & Hk & Ha).
    destruct again.
    + intros E. apply IH in E. destruct E as (used2 & key2 & -> & Hn).
      exists (used ++ key :: used2), key2.
      rewrite <- app_assoc. split; [reflexivity | assumption].
    + intros E. inversion E; subst.
      exists used, key. split; [reflexivity|].
      unfold is_answer in Hk. rewrite <- Ha in Hk. exact Hk.
Qed.

(** X14: [main] comes to its end only through an n or N at the game-over
    prompt: when it has ended, the keys it consumed end with such a key.
    No collision, no q and no other key ends the program. *)
Theorem X14_main_ends_only_on_no :
  forall n keys sizes w keys' sizes' w',
    main n keys sizes w = Exited keys' sizes' w' ->
    exists used key,
      keys = used ++ key :: keys' /\ is_no key = true.
Proof.
  intros n keys sizes w keys' sizes' w'. unfold main. apply passes_exit.
Qed.

(** ** The poll timeout stays in its range *)

Lemma game_loop_final_score_nonneg height width keys w site s g w' rest :
  game_loop height width keys w = GameOver site s g w' rest -> 0 <= s.
Proof.
  unfold game_loop.
  destruct (new_game height width w) as [[g0 w0]| |] eqn:Hn; try discriminate.
  apply new_game_shape in Hn. destruct Hn as (_ & _ & Hsc & _).
  intros Ht.
  apply (ticks_score height width (arena height width) keys g0 w0) in Ht. lia.
Qed.

Lemma main_pass_timeout_range keys sizes w :
  50 <= poll_timeout w <= 100 ->
  match main_pass keys sizes w with
  | TooSmall _ w' => 50 <= poll_timeout w' <= 100
  | Played _ _ _ _ w' => 50 <= poll_timeout w' <= 100
  | _ => True
  end.
Proof.
  intros Hw. unfold main_pass.
  destruct sizes as [|[height width] sizes1]; [exact I|].
  destruct ((height <? 10) || (width <? 30)).
  { unfold display_too_small_message.
    destruct sizes1 as [|[h2 w2] sizes2]; [exact I | exact Hw]. }
  destruct (game_loop height width keys w) as [site s g w1 keys1|g w1|e1|] eqn:Hg;
    try exact I.
  destruct (display_game_over s keys1 sizes1 w1) as [[[[a k2] s2] w2]|] eqn:Hd;
    [|exact I].
  apply display_game_over_world in Hd. destruct Hd as [Hp _]. rewrite Hp.
  pose proof (game_loop_final_score_nonneg _ _ _ _ _ _ _ _ _ Hg) as Hs.
  rewrite (game_loop_timeout _ _ _ _ _ _ _ _ _ Hg).
  destruct (s =? 0); [exact Hw|]. unfold new_timeout. lia.
Qed.

Lemma passes_timeout_range n :
  forall keys sizes w,
    50 <= poll_timeout w <= 100 ->
    match passes n keys sizes w with
    | Exited _ _ w' => 50 <= poll_timeout w' <= 100
    | Looping _ _ w' => 50 <= poll_timeout w' <= 100
    | _ => True
    end.
Proof.
  induction n as [|n IH]; intros keys sizes w Hw; simpl; [exact Hw|].
  pose proof (main_pass_timeout_range keys sizes w Hw) as Hp.
  destruct (main_pass keys sizes w) as [s1 w1|sc again k1 s1 w1|e1|];
    try exact I.
  - apply IH. exact Hp.
  - destruct again; [apply IH; exact Hp | exact Hp].
Qed.

(** X15: whatever is played, the poll timeout of [main] never leaves the
    range from 50 to 100 milliseconds: it is 100 after the set-up and
    between 50 and 100 after every pass of the loop. *)
Theorem X15_timeout_between_50_and_100 :
  forall n keys sizes w,
    poll_timeout (main_setup w) = 100
    /\ (forall keys' sizes' w',
           main n keys sizes w = Exited keys' sizes' w'
           \/ main n keys sizes w = Looping keys' sizes' w' ->
           50 <= poll_timeout w' <= 100).
Proof.
  intros n keys sizes w. split; [reflexivity|].
  intros keys' sizes' w' Hm. unfold main in Hm.
  assert (Hs : 50 <= poll_timeout (main_setup w) <= 100) by (simpl; lia).
  pose proof (passes_timeout_range n keys sizes (main_setup w) Hs) as Hp.
  destruct Hm as [Hm|Hm]; rewrite Hm in Hp; exact Hp.
Qed.

(** * The further properties at concrete states *)

Lemma square_snake_reachable : exists w, reachable 24 80 square_snake w.
Proof.
  apply (game_loop_pending_reachable 24 80
           [NO_KEY; NO_KEY; NO_KEY; KEY_DOWN; KEY_LEFT]
           (blank [12; 21; 12; 22; 12; 23; 2; 2])).
  vm_compute. reflexivity.
Qed.

Lemma X1_game_over_prompt_answer_witness :
  Forall (fun k => is_answer k = false) [NO_KEY; ord "q"]
  /\ is_answer (ord "Y") = true
  /\ exists w',
      display_game_over 3 ([NO_KEY; ord "q"] ++ ord "Y" :: [KEY_UP])
        [(24, 80)] (blank [])
      = Some (true, [KEY_UP], [], w').
Proof.
  assert (Hb : Forall (fun k => is_answer k = false) [NO_KEY; ord "q"])
    by (repeat constructor).
  split; [exact Hb|]. split; [reflexivity|].
  destruct (X1_game_over_prompt_answer 3 [NO_KEY; ord "q"] (ord "Y") [KEY_UP]
              (24, 80) [] (blank []) Hb eq_refl) as (w' & Hd & _).
  exists w'. exact Hd.
Defined.

Lemma X2_game_over_prompt_blocks_witness :
  Forall (fun k => is_answer k = false) [NO_KEY; ord "q"; KEY_UP]
  /\ display_game_over 3 [NO_KEY; ord "q"; KEY_UP] [(24, 80)] (blank []) = None.
Proof.
  assert (Hb : Forall (fun k => is_answer k = false) [NO_KEY; ord "q"; KEY_UP])
    by (repeat constructor).
  split; [exact Hb|].
  exact (proj2 (X2_game_over_prompt_blocks 3 [NO_KEY; ord "q"; KEY_UP]
                  (24, 80) [] (blank [])) Hb).
Defined.

Lemma X3_length_is_score_plus_one_witness :
  exists w,
    reachable 24 80 square_snake w
    /\ Z.of_nat (List.length (snake square_snake)) = score square_snake + 1
    /\ 0 <= score square_snake.
Proof.
  destruct square_snake_reachable as [w Hr].
  exists w. split; [exact Hr|].
  exact (proj1 (X3_length_is_score_plus_one 24 80) square_snake w Hr).
Defined.

Lemma X4_cells_distinct_food_free_witness :
  exists w,
    reachable 24 80 square_snake w
    /\ NoDup (snake square_snake)
    /\ ~ In (food square_snake) (snake square_snake).
Proof.
  destruct square_snake_reachable as [w Hr].
  exists w. split; [exact Hr|].
  exact (X4_cells_distinct_food_free 24 80 square_snake w Hr).
Defined.

Lemma X5_snake_and_food_inside_witness :
  exists w,
    8 <= 80
    /\ reachable 24 80 square_snake w
    /\ Forall (inside (arena 24 80)) (snake square_snake)
    /\ inside (arena 24 80) (food square_snake).
Proof.
  destruct square_snake_reachable as [w Hr].
  assert (Hw : 8 <= 80) by lia.
  exists w. split; [exact Hw|]. split; [exact Hr|].
  exact (X5_snake_and_food_inside 24 80 square_snake w Hw Hr).
Defined.

Lemma X6_never_onto_neck_witness :
  exists w,
    reachable 24 80 square_snake w
    /\ snake square_snake = (13, 22) :: (13, 23) :: [(12, 23); (12, 22)]
    /\ next_head KEY_RIGHT square_snake = Some (13, 21)
    /\ (13, 21) <> (13, 23).
Proof.
  destruct square_snake_reachable as [w Hr].
  exists w. split; [exact Hr|]. split; [reflexivity|]. split; [reflexivity|].
  exact (X6_never_onto_neck 24 80 square_snake w KEY_RIGHT (13, 21) (13, 22)
           (13, 23) [(12, 23); (12, 22)] Hr eq_refl eq_refl).
Defined.

Lemma X7_self_collision_needs_four_cells_witness :
  exists w g',
    reachable 24 80 square_snake w
    /\ tick 24 80 (arena 24 80) KEY_UP square_snake (blank [])
       = Returned AtSelf 3 g' (blank [])
    /\ 3 <= 3 /\ (4 <= List.length (snake square_snake))%nat.
Proof.
  destruct square_snake_reachable as [w Hr].
  exists w. eexists. split; [exact Hr|].
  split; [vm_compute; reflexivity|].
  exact (X7_self_collision_needs_four_cells 24 80 square_snake w KEY_UP
           (blank []) 3 _ (blank []) Hr eq_refl).
Defined.



Lemma X10_speed_carries_over_witness :
  exists w',
    main_pass [NO_KEY; ord "q"; ord "n"] [(24, 80); (24, 80)]
      (blank [12; 21; 5; 5])
    = Played 1 false [] [] w'
    /\ poll_timeout w' = 98.
Proof.
  eexists. split; [vm_compute; reflexivity|].
  exact (proj1 (X10_speed_carries_over [NO_KEY; ord "q"; ord "n"]
                  [(24, 80); (24, 80)] (blank [12; 21; 5; 5]))
           1 false [] [] _ eq_refl).
Defined.

Lemma X11_full_board_never_returns_witness :
  (exists c, inside ((1, 1), (3, 3)) c)
  /\ (forall c, inside ((1, 1), (3, 3)) c -> In c [(2, 2)])
  /\ create_food [(2, 2)] ((1, 1), (3, 3)) [7; 7; 9; 4] = Starved.
Proof.
  assert (Hex : exists c, inside ((1, 1), (3, 3)) c).
  { exists (2, 2). unfold inside. simpl. lia. }
  assert (Hfull : forall c, inside ((1, 1), (3, 3)) c -> In c [(2, 2)]).
  { intros [r c]. unfold inside. simpl. intros [Hr Hc]. left.
    f_equal; lia. }
  split; [exact Hex|]. split; [exact Hfull|].
  exact (X11_full_board_never_returns [(2, 2)] ((1, 1), (3, 3)) [7; 7; 9; 4]
           Hex Hfull).
Defined.

Lemma X12_instructions_need_42_columns_witness :
  10 <= 24 /\ 30 <= 40
  /\ ~ too_small (24, 40)
  /\ display_instructions 24 40 (blank [])
     = emit [AddStr 23 (-1) instructions (color_pair 3)] (blank []).
Proof.
  assert (Hh : 10 <= 24) by lia. assert (Hw : 30 <= 40) by lia.
  split; [exact Hh|]. split; [exact Hw|].
  destruct (X12_instructions_need_42_columns 24 40 (blank []))
    as (Hd & _ & _ & Hok).
  split; [exact (Hok Hh Hw) | exact Hd].
Defined.


Lemma X14_main_ends_only_on_no_witness :
  exists w',
    main 1 [NO_KEY; ord "q"; ord "n"] [(24, 80); (24, 80)] (blank [5; 5])
    = Exited [] [] w'
    /\ exists used key,
        [NO_KEY; ord "q"; ord "n"] = used ++ key :: [] /\ is_no key = true.
Proof.
  eexists. split; [vm_compute; reflexivity|].
  exact (X14_main_ends_only_on_no 1 [NO_KEY; ord "q"; ord "n"]
           [(24, 80); (24, 80)] (blank [5; 5]) [] [] _ eq_refl).
Defined.

Lemma X15_timeout_between_50_and_100_witness :
  exists w',
    main 1 [NO_KEY; ord "q"; ord "n"] [(24, 80); (24, 80)]
      (blank [12; 21; 5; 5])
    = Exited [] [] w'
    /\ 50 <= poll_timeout w' <= 100.
Proof.
  eexists. split; [vm_compute; reflexivity|].
  exact (proj2 (X15_timeout_between_50_and_100 1 [NO_KEY; ord "q"; ord "n"]
                  [(24, 80); (24, 80)] (blank [12; 21; 5; 5]))
           [] [] _ (or_introl eq_refl)).
Defined.
